(** * typedjson: a shallow embedding of [src/typedjson.ts]

    The module extends JSON with dates, sets, maps, regular expressions,
    big integers, the non-finite numbers, [undefined] and errors.
    [serialize] lowers a value to JSON text through the replacer hook of
    [JSON.stringify] and records, in a side table, which path held which
    extended kind; [deserialize] parses the text and walks the recorded
    paths to restore the values; [stringify] and [parse] pack the side
    table into one payload.

    The embedding has three layers:
    - the values of the language and the engine operations the module
      calls ([JSON.stringify], [JSON.parse], [Date], [BigInt], ...),
      written after ECMA-262 for the fragment modelled here;
    - the four functions of the module, transcribed statement by
      statement;
    - the properties of the module.

    Conventions.  Text is [string]; its characters stand for code units
    below 256.  Finite numbers are the integers that a double holds
    exactly ([Int z] with [|z| <= 2^53 - 1]); they print in plain decimal.
    A property read that finds its name in a built-in prototype leaves
    the fragment: the functions found there are no values of the model.
    Assignments follow strict mode, the mode of a module.  Whatever
    leaves the fragment evaluates to [Beyond], so that no statement is
    made about it. *)

From Stdlib Require Import List String Ascii ZArith NArith Lia Bool.
From Stdlib Require Import DecimalString DecimalFacts DecimalPos DecimalN DecimalZ.
Import ListNotations.
Open Scope string_scope.
Open Scope Z_scope.

Set Implicit Arguments.

(** ** Completions *)

(** The errors an evaluation can raise.  [InvalidRegexp] is the error the
    module raises itself ([throw new Error(`Invalid regexp: ${value}`)]);
    the others are raised by the engine. *)
Inductive exn : Type :=
| TypeError
| SyntaxError
| RangeError
| InvalidRegexp (text : string).

Inductive completion (A : Type) : Type :=
| Normal (a : A)
| Throw (e : exn)
| Beyond.

Arguments Normal {A} a.
Arguments Throw {A} e.
Arguments Beyond {A}.

Definition bind {A B : Type} (c : completion A) (k : A -> completion B)
  : completion B :=
  match c with
  | Normal a => k a
  | Throw e => Throw e
  | Beyond => Beyond
  end.

Notation "x <- c ;; k" := (bind c (fun x => k))
  (at level 61, c at next level, right associativity).
Notation "' p <- c ;; k" := (bind c (fun x => let 'p := x in k))
  (at level 61, p pattern, c at next level, right associativity).

(** ** Text helpers *)

Definition is_digit (c : ascii) : bool :=
  let n := N_of_ascii c in ((48 <=? n) && (n <=? 57))%N.

Fixpoint all_chars (p : ascii -> bool) (s : string) : bool :=
  match s with
  | EmptyString => true
  | String c r => p c && all_chars p r
  end.

(** The longest prefix of [s] whose characters satisfy [p], and the rest. *)
Fixpoint span (p : ascii -> bool) (s : string) : string * string :=
  match s with
  | EmptyString => (EmptyString, EmptyString)
  | String c r =>
      if p c then let '(a, b) := span p r in (String c a, b)
      else (EmptyString, s)
  end.

(** [ToString] of an integer: plain decimal, with a minus sign. *)
Definition dec_of_Z (z : Z) : string := NilZero.string_of_int (Z.to_int z).

(** [ToString] of an array index. *)
Definition dec_of_N (n : N) : string := NilZero.string_of_uint (N.to_uint n).

(** The integer a text denotes when it is that integer's [ToString]. *)
Definition Z_of_dec (s : string) : option Z :=
  match NilZero.int_of_string s with
  | Some d => let z := Z.of_int d in
              if dec_of_Z z =? s then Some z else None
  | None => None
  end%string.

(** A property key is an array index when it is the canonical text of an
    integer below [2^32 - 1] (ECMA-262, 6.1.7). *)
Definition array_index (k : string) : option N :=
  match NilZero.uint_of_string k with
  | Some d => let n := N.of_uint d in
              if ((dec_of_N n =? k)%string && (n <? 4294967295)%N)%bool
              then Some n else None
  | None => None
  end.

(** [s.split('.')]: never empty. *)
Fixpoint split_dot (s : string) : list string :=
  match s with
  | EmptyString => [EmptyString]
  | String c r =>
      if Ascii.eqb c "." then EmptyString :: split_dot r
      else match split_dot r with
           | h :: t => String c h :: t
           | [] => [String c EmptyString]
           end
  end.

(** ** Values *)

Inductive number : Type :=
| Int (z : Z)
| PosInf
| NegInf
| NaN.

(** A [Date] holds its time value in milliseconds, [None] for the invalid
    date.  A plain object is the list of its own enumerable properties in
    enumeration order; a [Set] the list of its elements and a [Map] (with
    text keys) the list of its entries, both in insertion order.  An
    [Error] holds its [name], [message] and [stack]. *)
Unset Elimination Schemes.

Inductive jsval : Type :=
| VUndefined
| VNull
| VBool (b : bool)
| VNum (n : number)
| VStr (s : string)
| VBigInt (z : Z)
| VArr (elems : list jsval)
| VObj (props : list (string * jsval))
| VDate (t : option Z)
| VSet (elems : list jsval)
| VMap (entries : list (string * jsval))
| VRegExp (source flags : string)
| VError (name : jsval) (message : string) (stack : jsval).

Set Elimination Schemes.

(** Induction over values, with the hypothesis available for every member
    of a container. *)
Definition jsval_ind (P : jsval -> Prop)
  (f_undefined : P VUndefined) (f_null : P VNull)
  (f_bool : forall b, P (VBool b)) (f_num : forall n, P (VNum n))
  (f_str : forall s, P (VStr s)) (f_bigint : forall z, P (VBigInt z))
  (f_arr : forall l, Forall P l -> P (VArr l))
  (f_obj : forall ps, Forall (fun kv => P (snd kv)) ps -> P (VObj ps))
  (f_date : forall t, P (VDate t))
  (f_set : forall l, Forall P l -> P (VSet l))
  (f_map : forall es, Forall (fun kv => P (snd kv)) es -> P (VMap es))
  (f_regexp : forall s f, P (VRegExp s f))
  (f_error : forall n m s, P n -> P s -> P (VError n m s))
  : forall v, P v :=
  fix F (v : jsval) : P v :=
    let list_F := fix G (l : list jsval) : Forall P l :=
      match l with
      | [] => Forall_nil _
      | x :: r => Forall_cons _ (F x) (G r)
      end in
    let props_F := fix G (l : list (string * jsval))
        : Forall (fun kv => P (snd kv)) l :=
      match l with
      | [] => Forall_nil _
      | kv :: r => Forall_cons _ (F (snd kv)) (G r)
      end in
    match v with
    | VUndefined => f_undefined
    | VNull => f_null
    | VBool b => f_bool b
    | VNum n => f_num n
    | VStr s => f_str s
    | VBigInt z => f_bigint z
    | VArr l => f_arr l (list_F l)
    | VObj ps => f_obj ps (props_F ps)
    | VDate t => f_date t
    | VSet l => f_set l (list_F l)
    | VMap es => f_map es (props_F es)
    | VRegExp s f => f_regexp s f
    | VError n m s => f_error n m s (F n) (F s)
    end.

(** The number of nodes of a value. *)
Fixpoint jsval_size (v : jsval) : nat :=
  match v with
  | VArr l | VSet l => S (fold_right (fun x n => (jsval_size x + n)%nat) 0%nat l)
  | VObj ps | VMap ps =>
      S (fold_right (fun kv n => (jsval_size (snd kv) + n)%nat) 0%nat ps)
  | VError n _ s => S (jsval_size n + jsval_size s)
  | _ => 1%nat
  end.

(** ** Property tables *)

Section Props.
Variable A : Type.

Fixpoint lookup (k : string) (l : list (string * A)) : option A :=
  match l with
  | [] => None
  | (k', x) :: r => if (k =? k')%string then Some x else lookup k r
  end.

(** Overwrite the entry of [k], keeping its place; [None] when [k] is
    not a key. *)
Fixpoint replace (k : string) (x : A) (l : list (string * A))
  : option (list (string * A)) :=
  match l with
  | [] => None
  | (k', y) :: r =>
      if (k =? k')%string then Some ((k, x) :: r)
      else option_map (cons (k', y)) (replace k x r)
  end.

(** [Map.prototype.set]: a known key keeps its place, a new key goes
    last. *)
Definition map_set (k : string) (x : A) (l : list (string * A))
  : list (string * A) :=
  match replace k x l with
  | Some l' => l'
  | None => l ++ [(k, x)]
  end.

(** A new array-index key goes before the first key that is no index
    or a larger one. *)
Fixpoint insert_index (n : N) (k : string) (x : A) (l : list (string * A))
  : list (string * A) :=
  match l with
  | [] => [(k, x)]
  | (k', y) :: r =>
      match array_index k' with
      | Some m => if (n <? m)%N then (k, x) :: l
                  else (k', y) :: insert_index n k x r
      | None => (k, x) :: l
      end
  end.

(** [CreateDataProperty] / [Set] on an ordinary object whose own keys
    are listed in enumeration order: array indices ascending, then the
    other keys in creation order (ECMA-262, 10.1.11.1). *)
Definition obj_set (k : string) (x : A) (l : list (string * A))
  : list (string * A) :=
  match replace k x l with
  | Some l' => l'
  | None =>
      match array_index k with
      | Some n => insert_index n k x l
      | None => l ++ [(k, x)]
      end
  end.

(** [Object.fromEntries] of text-keyed entries. *)
Definition fromEntries (es : list (string * A)) : list (string * A) :=
  fold_left (fun o kv => obj_set (fst kv) (snd kv) o) es [].

Fixpoint obj_delete (k : string) (l : list (string * A))
  : list (string * A) :=
  match l with
  | [] => []
  | (k', y) :: r =>
      if (k =? k')%string then r else (k', y) :: obj_delete k r
  end.
End Props.

Arguments lookup {A} k l.
Arguments replace {A} k x l.
Arguments map_set {A} k x l.
Arguments insert_index {A} n k x l.
Arguments obj_set {A} k x l.
Arguments fromEntries {A} es.
Arguments obj_delete {A} k l.

(** ** Dates *)

(** Days since the epoch to year, month, day of the proleptic Gregorian
    calendar, and back (the civil-calendar formulas of ECMA-262, 21.4.1,
    in closed form). *)
Definition civil_from_days (days : Z) : Z * Z * Z :=
  let z := days + 719468 in
  let era := z / 146097 in
  let doe := z - era * 146097 in
  let yoe := (doe - doe / 1460 + doe / 36524 - doe / 146096) / 365 in
  let doy := doe - (365 * yoe + yoe / 4 - yoe / 100) in
  let mp := (5 * doy + 2) / 153 in
  let d := doy - (153 * mp + 2) / 5 + 1 in
  let m := if mp <? 10 then mp + 3 else mp - 9 in
  let y := yoe + era * 400 in
  (if m <=? 2 then y + 1 else y, m, d).

Definition days_from_civil (y m d : Z) : Z :=
  let y := if m <=? 2 then y - 1 else y in
  let era := y / 400 in
  let yoe := y - era * 400 in
  let doy := (153 * (if 2 <? m then m - 3 else m + 9) + 2) / 5 + d - 1 in
  let doe := yoe * 365 + yoe / 4 - yoe / 100 + doy in
  era * 146097 + doe - 719468.

Definition digit_char (d : Z) : ascii := ascii_of_N (48 + Z.to_N d).

(** [n] in decimal on exactly [width] digits. *)
Fixpoint pad_dec (width : nat) (n : Z) : string :=
  match width with
  | O => EmptyString
  | S w => pad_dec w (n / 10) ++ String (digit_char (n mod 10)) EmptyString
  end.

(** [Date.prototype.toISOString] of a valid time value. *)
Definition toISOString (t : Z) : string :=
  let '(y, m, d) := civil_from_days (t / 86400000) in
  let ms := t mod 86400000 in
  (if (0 <=? y) && (y <=? 9999) then pad_dec 4 y
   else (if y <? 0 then "-" else "+") ++ pad_dec 6 (Z.abs y))
  ++ "-" ++ pad_dec 2 m ++ "-" ++ pad_dec 2 d
  ++ "T" ++ pad_dec 2 (ms / 3600000) ++ ":" ++ pad_dec 2 (ms / 60000 mod 60)
  ++ ":" ++ pad_dec 2 (ms / 1000 mod 60) ++ "." ++ pad_dec 3 (ms mod 1000)
  ++ "Z".

(** Read exactly [width] digits. *)
Fixpoint read_dec (width : nat) (acc : Z) (s : string) : option (Z * string) :=
  match width with
  | O => Some (acc, s)
  | S w =>
      match s with
      | String c r =>
          if is_digit c
          then read_dec w (10 * acc + (Z.of_N (N_of_ascii c) - 48)) r
          else None
      | EmptyString => None
      end
  end.

Definition expect (c : ascii) (s : string) : option string :=
  match s with
  | String c' r => if Ascii.eqb c c' then Some r else None
  | EmptyString => None
  end.

Definition option_bind {A B : Type} (o : option A) (k : A -> option B)
  : option B :=
  match o with
  | Some a => k a
  | None => None
  end.

(** The fields of a text laid out as [toISOString] lays it out. *)
Definition read_iso (s : string) : option Z :=
  option_bind
    (match s with
     | String "+" r => read_dec 6 0 r
     | String "-" r => option_map (fun p => (- fst p, snd p)) (read_dec 6 0 r)
     | _ => read_dec 4 0 s
     end) (fun '(y, s) =>
  option_bind (expect "-" s) (fun s =>
  option_bind (read_dec 2 0 s) (fun '(m, s) =>
  option_bind (expect "-" s) (fun s =>
  option_bind (read_dec 2 0 s) (fun '(d, s) =>
  option_bind (expect "T" s) (fun s =>
  option_bind (read_dec 2 0 s) (fun '(h, s) =>
  option_bind (expect ":" s) (fun s =>
  option_bind (read_dec 2 0 s) (fun '(mi, s) =>
  option_bind (expect ":" s) (fun s =>
  option_bind (read_dec 2 0 s) (fun '(sec, s) =>
  option_bind (expect "." s) (fun s =>
  option_bind (read_dec 3 0 s) (fun '(ms, s) =>
  match s with
  | "Z" => Some (days_from_civil y m d * 86400000
                 + h * 3600000 + mi * 60000 + sec * 1000 + ms)
  | _ => None
  end))))))))))))).

(** [Date.parse] on the text [toISOString] produces for a time value in
    range; [None] on any other text (other layouts are parsed in
    engine-specific ways). *)
Definition Date_parse (s : string) : option Z :=
  match read_iso s with
  | Some t =>
      if (Z.abs t <=? 8640000000000000) && (toISOString t =? s)%string
      then Some t else None
  | None => None
  end.

(** ** Conversions and property access *)

(** [typeof v === 'object' && v !== null]. *)
Definition is_object (v : jsval) : bool :=
  match v with
  | VArr _ | VObj _ | VDate _ | VSet _ | VMap _ | VRegExp _ _
  | VError _ _ _ => true
  | _ => false
  end.

(** [ToBoolean]. *)
Definition truthy (v : jsval) : bool :=
  match v with
  | VUndefined | VNull | VBool false | VNum (Int 0) | VNum NaN
  | VStr EmptyString | VBigInt 0 => false
  | _ => true
  end.

(** The integers a double holds exactly. *)
Definition safe_integer (z : Z) : bool := Z.abs z <=? 9007199254740991.

(** The names every plain object inherits from [Object.prototype]
    (ECMA-262, 20.1.3 and B.2.2). *)
Definition object_prototype_names : list string :=
  ["constructor"; "hasOwnProperty"; "isPrototypeOf"; "propertyIsEnumerable";
   "toLocaleString"; "toString"; "valueOf"; "__proto__";
   "__defineGetter__"; "__defineSetter__"; "__lookupGetter__";
   "__lookupSetter__"].

Definition inherited_name (k : string) : bool :=
  existsb (String.eqb k) object_prototype_names.

Definition is_letter (c : ascii) : bool :=
  let n := N_of_ascii c in
  (((65 <=? n) && (n <=? 90)) || ((97 <=? n) && (n <=? 122)))%N.

(** A name that the prototype of an array, a string, a number, a boolean,
    a big integer or an error may define.  The lists of these prototypes
    grow with the editions of the language; all their names are made of
    letters. *)
Definition may_be_inherited (k : string) : bool :=
  inherited_name k || (negb (k =? "")%string && all_chars is_letter k).

(** [ToString].  An array prints its elements between commas, [null] and
    [undefined] as nothing; a plain object prints as [[object Object]],
    unless a member of its own replaces [toString] or [valueOf]. *)
Fixpoint to_string (v : jsval) : completion string :=
  match v with
  | VUndefined => Normal "undefined"
  | VNull => Normal "null"
  | VBool true => Normal "true"
  | VBool false => Normal "false"
  | VNum (Int z) => if safe_integer z then Normal (dec_of_Z z) else Beyond
  | VNum PosInf => Normal "Infinity"
  | VNum NegInf => Normal "-Infinity"
  | VNum NaN => Normal "NaN"
  | VStr s => Normal s
  | VBigInt z => Normal (dec_of_Z z)
  | VArr l =>
      parts <- (fix each (l : list jsval) : completion (list string) :=
                  match l with
                  | [] => Normal []
                  | x :: r =>
                      t <- match x with
                           | VUndefined | VNull => Normal ""
                           | _ => to_string x
                           end ;;
                      ts <- each r ;;
                      Normal (t :: ts)
                  end) l ;;
      Normal (String.concat "," parts)
  | VObj ps =>
      match lookup "toString" ps, lookup "valueOf" ps with
      | None, None => Normal "[object Object]"
      | _, _ => Beyond
      end
  | _ => Beyond
  end.

Fixpoint string_get (n : nat) (s : string) : option ascii :=
  match s, n with
  | EmptyString, _ => None
  | String c _, O => Some c
  | String _ r, S m => string_get m r
  end.

Definition str_length (s : string) : Z := Z.of_nat (String.length s).

(** [holder[key]].  A name that is no property of the holder itself is
    looked up in its prototype: what is found there (a function, as a
    rule) is outside the fragment, and a name that no prototype can
    define reads as [undefined]. *)
Definition get_own (holder : jsval) (key : string) : completion jsval :=
  match holder with
  | VUndefined | VNull => Throw TypeError
  | VObj ps =>
      match lookup key ps with
      | Some x => Normal x
      | None => if inherited_name key then Beyond else Normal VUndefined
      end
  | VArr l =>
      match array_index key with
      | Some n => Normal (nth (N.to_nat n) l VUndefined)
      | None =>
          if (key =? "length")%string
          then Normal (VNum (Int (Z.of_nat (List.length l))))
          else if may_be_inherited key then Beyond else Normal VUndefined
      end
  | VStr s =>
      match array_index key with
      | Some n =>
          Normal (match string_get (N.to_nat n) s with
                  | Some c => VStr (String c EmptyString)
                  | None => VUndefined
                  end)
      | None =>
          if (key =? "length")%string then Normal (VNum (Int (str_length s)))
          else if may_be_inherited key then Beyond else Normal VUndefined
      end
  | VBool _ | VNum _ | VBigInt _ =>
      if may_be_inherited key then Beyond else Normal VUndefined
  | VError n m s =>
      if (key =? "message")%string then Normal (VStr m)
      else if (key =? "name")%string then Normal n
      else if (key =? "stack")%string then Normal s
      else if may_be_inherited key then Beyond else Normal VUndefined
  | VDate _ | VSet _ | VMap _ | VRegExp _ _ => Beyond
  end.

Fixpoint list_set (n : nat) (x : jsval) (l : list jsval) : list jsval :=
  match l, n with
  | [], _ => []
  | _ :: r, O => x :: r
  | y :: r, S m => y :: list_set m x r
  end.

(** [holder[key] = x] in strict mode.  Writing past the end of an array
    (which leaves holes) or a named property into an array is outside the
    fragment, and so is the setter [__proto__] of [Object.prototype]. *)
Definition set_own (holder : jsval) (key : string) (x : jsval)
  : completion jsval :=
  match holder with
  | VUndefined | VNull => Throw TypeError
  | VBool _ | VNum _ | VStr _ | VBigInt _ => Throw TypeError
  | VObj ps =>
      match lookup key ps with
      | None => if (key =? "__proto__")%string then Beyond
                else Normal (VObj (obj_set key x ps))
      | Some _ => Normal (VObj (obj_set key x ps))
      end
  | VArr l =>
      match array_index key with
      | Some n =>
          if (N.to_nat n <? List.length l)%nat
          then Normal (VArr (list_set (N.to_nat n) x l))
          else if (N.to_nat n =? List.length l)%nat
               then Normal (VArr (l ++ [x]))
               else Beyond
      | None => Beyond
      end
  | _ => Beyond
  end.

(** [Object.keys]. *)
Definition Object_keys (v : jsval) : completion (list string) :=
  match v with
  | VUndefined | VNull => Throw TypeError
  | VObj ps => Normal (map fst ps)
  | VArr l => Normal (map (fun i => dec_of_N (N.of_nat i)) (seq 0 (List.length l)))
  | VStr s => Normal (map (fun i => dec_of_N (N.of_nat i)) (seq 0 (String.length s)))
  | VBool _ | VNum _ | VBigInt _ => Normal []
  | VDate _ | VSet _ | VMap _ | VRegExp _ _ => Normal []
  | VError _ _ _ => Beyond
  end.

(** [SameValueZero], on freshly parsed values: two objects are never the
    same object. *)
Definition same_value_zero (a b : jsval) : bool :=
  match a, b with
  | VUndefined, VUndefined | VNull, VNull => true
  | VBool x, VBool y => Bool.eqb x y
  | VNum (Int x), VNum (Int y) => x =? y
  | VNum PosInf, VNum PosInf | VNum NegInf, VNum NegInf
  | VNum NaN, VNum NaN => true
  | VStr x, VStr y => (x =? y)%string
  | VBigInt x, VBigInt y => x =? y
  | _, _ => false
  end.

(** The elements a [Set] keeps of a list: the first of each class. *)
Fixpoint set_add_all (seen : list jsval) (l : list jsval) : list jsval :=
  match l with
  | [] => seen
  | x :: r =>
      if existsb (same_value_zero x) seen then set_add_all seen r
      else set_add_all (seen ++ [x]) r
  end.

(** [new Date(v)]. *)
Definition Date_new (v : jsval) : completion jsval :=
  match v with
  | VUndefined => Normal (VDate None)
  | VNull => Normal (VDate (Some 0))
  | VBool b => Normal (VDate (Some (if b then 1 else 0)))
  | VNum (Int z) =>
      Normal (VDate (if Z.abs z <=? 8640000000000000 then Some z else None))
  | VNum _ => Normal (VDate None)
  | VBigInt _ => Throw TypeError
  | VStr s =>
      match Date_parse s with
      | Some t => Normal (VDate (Some t))
      | None => Beyond
      end
  | VDate t => Normal (VDate t)
  | _ => Beyond
  end.

(** [new Set(v)]. *)
Definition Set_new (v : jsval) : completion jsval :=
  match v with
  | VUndefined | VNull => Normal (VSet [])
  | VArr l => Normal (VSet (set_add_all [] l))
  | VSet l => Normal (VSet l)
  | VBool _ | VNum _ | VBigInt _ | VObj _ => Throw TypeError
  | _ => Beyond
  end.

(** [new Map(Object.entries(v))]. *)
Definition Map_of_entries (v : jsval) : completion jsval :=
  match v with
  | VUndefined | VNull => Throw TypeError
  | VObj ps => Normal (VMap ps)
  | VArr l =>
      Normal (VMap (combine (map (fun i => dec_of_N (N.of_nat i))
                               (seq 0 (List.length l))) l))
  | VBool _ | VNum _ | VBigInt _ => Normal (VMap [])
  | VDate _ | VSet _ | VMap _ | VRegExp _ _ => Normal (VMap [])
  | _ => Beyond
  end.

Definition is_space (c : ascii) : bool :=
  let n := N_of_ascii c in
  ((n =? 32) || ((9 <=? n) && (n <=? 13)) || (n =? 160))%N.

Definition is_alnum (c : ascii) : bool :=
  let n := N_of_ascii c in
  (is_digit c || ((65 <=? n) && (n <=? 90)) || ((97 <=? n) && (n <=? 122)))%N.

(** [BigInt(v)].  A text is read as a signed decimal; a text with a
    character no integer literal can hold is a syntax error; the other
    texts (white space, a plus sign, radix prefixes) are outside the
    fragment. *)
Definition BigInt_new (v : jsval) : completion jsval :=
  match v with
  | VUndefined | VNull => Throw TypeError
  | VBool b => Normal (VBigInt (if b then 1 else 0))
  | VNum (Int z) => Normal (VBigInt z)
  | VNum _ => Throw RangeError
  | VBigInt z => Normal (VBigInt z)
  | VStr s =>
      match NilZero.int_of_string s with
      | Some d => Normal (VBigInt (Z.of_int d))
      | None =>
          if (s =? "")%string then Normal (VBigInt 0)
          else if all_chars (fun c => is_space c || is_alnum c
                                      || Ascii.eqb c "+" || Ascii.eqb c "-") s
               then Beyond
               else Throw SyntaxError
      end
  | _ => Beyond
  end.

(** ** Regular expressions *)

Definition is_flag (c : ascii) : bool :=
  match c with
  | "d" | "g" | "i" | "m" | "s" | "u" | "y" => true
  | _ => false
  end%char.

Definition is_line_terminator (c : ascii) : bool :=
  match c with
  | "010" | "013" => true
  | _ => false
  end%char.

(** Split at the last slash. *)
Fixpoint split_last_slash (s : string) : option (string * string) :=
  match s with
  | EmptyString => None
  | String c r =>
      match split_last_slash r with
      | Some (a, b) => Some (String c a, b)
      | None => if Ascii.eqb c "/" then Some (EmptyString, r) else None
      end
  end.

(** The two groups of the match of the pattern of [applyConversion]
    (a slash, any characters, a slash, letters among dgimsuy) against
    [s].  The flags hold no slash, so the second slash of a match is the
    last slash of [s]; the dot matches no line terminator. *)
Definition regexp_exec (s : string) : option (string * string) :=
  match s with
  | String "/" r =>
      match split_last_slash r with
      | Some (body, flags) =>
          if all_chars is_flag flags
             && all_chars (fun c => negb (is_line_terminator c)) body
          then Some (body, flags) else None
      | None => None
      end
  | _ => None
  end.

Fixpoint string_mem (c : ascii) (s : string) : bool :=
  match s with
  | EmptyString => false
  | String c' r => Ascii.eqb c c' || string_mem c r
  end.

Fixpoint string_nodup (s : string) : bool :=
  match s with
  | EmptyString => true
  | String c r => negb (string_mem c r) && string_nodup r
  end.

Fixpoint string_filter (p : ascii -> bool) (s : string) : string :=
  match s with
  | EmptyString => EmptyString
  | String c r => if p c then String c (string_filter p r) else string_filter p r
  end.

(** The [flags] accessor lists the flags in a fixed order. *)
Definition sort_flags (flags : string) : string :=
  string_filter (fun c => string_mem c flags) "dgimsuy".

(** [RegExp.prototype.toString]. *)
Definition regexp_text (source flags : string) : string :=
  "/" ++ source ++ "/" ++ flags.

(** ** JSON text *)

Definition hex_char (n : N) : ascii :=
  if (n <? 10)%N then ascii_of_N (48 + n) else ascii_of_N (87 + n).

Definition hex_val (c : ascii) : option N :=
  let n := N_of_ascii c in
  if ((48 <=? n) && (n <=? 57))%N then Some (n - 48)%N
  else if ((97 <=? n) && (n <=? 102))%N then Some (n - 87)%N
  else if ((65 <=? n) && (n <=? 70))%N then Some (n - 55)%N
  else None.

(** One code unit inside a JSON string (ECMA-262, 25.5.2.3). *)
Definition quote_char (c : ascii) : string :=
  match c with
  | "008"%char => "\b"
  | "009"%char => "\t"
  | "010"%char => "\n"
  | "012"%char => "\f"
  | "013"%char => "\r"
  | "034"%char => String "\" (String "034" EmptyString)
  | "\"%char => "\\"
  | _ =>
      let n := N_of_ascii c in
      if (n <? 32)%N
      then "\u00" ++ String (hex_char (n / 16)) (String (hex_char (n mod 16)) "")
      else String c ""
  end.

Fixpoint quote_chars (s : string) : string :=
  match s with
  | EmptyString => EmptyString
  | String c r => quote_char c ++ quote_chars r
  end.

Definition QuoteJSONString (s : string) : string :=
  String "034" (quote_chars s ++ String "034" EmptyString).

Definition is_ws (c : ascii) : bool :=
  match c with
  | " " | "009" | "010" | "013" => true
  | _ => false
  end%char.

Fixpoint skip_ws (s : string) : string :=
  match s with
  | EmptyString => EmptyString
  | String c r => if is_ws c then skip_ws r else s
  end.

Definition push_char (c : ascii) (k : completion (string * string))
  : completion (string * string) :=
  '(s, r) <- k ;; Normal (String c s, r).

(** The characters of a JSON string after its opening quote, and the text
    after its closing quote. *)
Fixpoint parse_chars (s : string) : completion (string * string) :=
  match s with
  | EmptyString => Throw SyntaxError
  | String c r =>
      if Ascii.eqb c "034" then Normal (EmptyString, r)
      else if Ascii.eqb c "\" then
        match r with
        | String e r1 =>
            match e with
            | "034" | "\" | "/" => push_char e (parse_chars r1)
            | "b" => push_char "008" (parse_chars r1)
            | "f" => push_char "012" (parse_chars r1)
            | "n" => push_char "010" (parse_chars r1)
            | "r" => push_char "013" (parse_chars r1)
            | "t" => push_char "009" (parse_chars r1)
            | "u" =>
                match r1 with
                | String h1 (String h2 (String h3 (String h4 r2))) =>
                    match hex_val h1, hex_val h2, hex_val h3, hex_val h4 with
                    | Some a, Some b, Some c, Some d =>
                        if ((a =? 0) && (b =? 0))%N
                        then push_char (ascii_of_N (16 * c + d)) (parse_chars r2)
                        else Beyond
                    | _, _, _, _ => Throw SyntaxError
                    end
                | _ => Throw SyntaxError
                end
            | _ => Throw SyntaxError
            end%char
        | EmptyString => Throw SyntaxError
        end
      else if (N_of_ascii c <? 32)%N then Throw SyntaxError
      else push_char c (parse_chars r)
  end.

(** A JSON number.  Fractions and exponents, negative zero and integers
    a double does not hold exactly are outside the fragment. *)
Definition parse_number (s : string) : completion (jsval * string) :=
  let '(neg, s1) := match s with
                    | String "-" r => (true, r)
                    | _ => (false, s)
                    end in
  let '(ds, rest) := span is_digit s1 in
  match ds with
  | EmptyString => Throw SyntaxError
  | _ =>
      let continues := match rest with
                       | String c _ => (Ascii.eqb c "." || Ascii.eqb c "e"
                                        || Ascii.eqb c "E")
                       | EmptyString => false
                       end in
      if continues then Beyond
      else
        match Z_of_dec (if neg then "-" ++ ds else ds) with
        | Some z => if safe_integer z then Normal (VNum (Int z), rest)
                    else Beyond
        | None => if (ds =? "0")%string then Beyond else Throw SyntaxError
        end
  end.

Definition parse_literal (s : string) : completion (jsval * string) :=
  match s with
  | String "n" (String "u" (String "l" (String "l" r))) => Normal (VNull, r)
  | String "t" (String "r" (String "u" (String "e" r))) =>
      Normal (VBool true, r)
  | String "f" (String "a" (String "l" (String "s" (String "e" r)))) =>
      Normal (VBool false, r)
  | _ => Throw SyntaxError
  end.

(** The JSON grammar by recursive descent; [fuel] bounds the number of
    nested calls, and the length of the text is always enough.  Members
    are defined in text order, so a repeated key keeps its first place
    and its last value. *)
Fixpoint parse_value (fuel : nat) (s : string) : completion (jsval * string) :=
  match fuel with
  | O => Beyond
  | S f =>
      match skip_ws s with
      | EmptyString => Throw SyntaxError
      | String c r =>
          if Ascii.eqb c "{" then
            match skip_ws r with
            | String "}" r1 => Normal (VObj [], r1)
            | _ => parse_members f r []
            end
          else if Ascii.eqb c "[" then
            match skip_ws r with
            | String "]" r1 => Normal (VArr [], r1)
            | _ => parse_elems f r []
            end
          else if Ascii.eqb c "034" then
            '(str, r1) <- parse_chars r ;; Normal (VStr str, r1)
          else if Ascii.eqb c "-" || is_digit c then parse_number (String c r)
          else parse_literal (String c r)
      end
  end
with parse_elems (fuel : nat) (s : string) (acc : list jsval)
  : completion (jsval * string) :=
  match fuel with
  | O => Beyond
  | S f =>
      '(v, r) <- parse_value f s ;;
      match skip_ws r with
      | String "," r1 => parse_elems f r1 (acc ++ [v])
      | String "]" r1 => Normal (VArr (acc ++ [v]), r1)
      | _ => Throw SyntaxError
      end
  end
with parse_members (fuel : nat) (s : string) (acc : list (string * jsval))
  : completion (jsval * string) :=
  match fuel with
  | O => Beyond
  | S f =>
      match skip_ws s with
      | String "034" r =>
          '(k, r1) <- parse_chars r ;;
          match skip_ws r1 with
          | String ":" r2 =>
              '(v, r3) <- parse_value f r2 ;;
              match skip_ws r3 with
              | String "," r4 => parse_members f r4 (obj_set k v acc)
              | String "}" r4 => Normal (VObj (obj_set k v acc), r4)
              | _ => Throw SyntaxError
              end
          | _ => Throw SyntaxError
          end
      | _ => Throw SyntaxError
      end
  end.

(** [JSON.parse(text)]. *)
Definition JSON_parse (text : string) : completion jsval :=
  '(v, rest) <- parse_value (S (String.length text)) text ;;
  match skip_ws rest with
  | EmptyString => Normal v
  | _ => Throw SyntaxError
  end.

(** ** [JSON.stringify] *)

(** [Date.prototype.toJSON], the only [toJSON] of the fragment: it runs
    before the replacer sees the value. *)
Definition toJSON (v : jsval) : jsval :=
  match v with
  | VDate (Some t) => VStr (toISOString t)
  | VDate None => VNull
  | _ => v
  end.

Definition index_keys (n : nat) : list string :=
  map (fun i => dec_of_N (N.of_nat i)) (seq 0 n).

(** The members of an object text: a property whose value serializes to
    nothing is left out. *)
Fixpoint object_members (ks : list string) (parts : list (option string))
  : list string :=
  match ks, parts with
  | k :: ks', Some p :: parts' =>
      (QuoteJSONString k ++ ":" ++ p) :: object_members ks' parts'
  | _ :: ks', None :: parts' => object_members ks' parts'
  | _, _ => []
  end.

Definition object_text (ks : list string) (parts : list (option string))
  : string :=
  "{" ++ String.concat "," (object_members ks parts) ++ "}".

(** The elements of an array text: an element that serializes to nothing
    prints as [null]. *)
Definition array_text (parts : list (option string)) : string :=
  "[" ++ String.concat ","
           (map (fun p => match p with Some t => t | None => "null" end) parts)
      ++ "]".

Section Stringify.
Variable St : Type.

(** The replacer function, with the state it closes over made explicit. *)
Variable replacer : St -> string -> jsval -> completion (jsval * St).

(** The properties of one holder, in order. *)
Fixpoint serialize_each
  (ser : St -> string -> completion (option string * St))
  (ks : list string) (st : St) : completion (list (option string) * St) :=
  match ks with
  | [] => Normal ([], st)
  | k :: ks' =>
      '(p, st1) <- ser st k ;;
      '(ps, st2) <- serialize_each ser ks' st1 ;;
      Normal (p :: ps, st2)
  end.

(** [SerializeJSONProperty] (ECMA-262, 25.5.2.2), without indentation.
    [fuel] bounds the nesting of the calls. *)
Fixpoint SerializeJSONProperty (fuel : nat) (st : St) (key : string)
  (holder : jsval) : completion (option string * St) :=
  match fuel with
  | O => Beyond
  | S f =>
      v0 <- get_own holder key ;;
      '(v, st1) <- replacer st key (toJSON v0) ;;
      match v with
      | VNull => Normal (Some "null", st1)
      | VBool true => Normal (Some "true", st1)
      | VBool false => Normal (Some "false", st1)
      | VStr s => Normal (Some (QuoteJSONString s), st1)
      | VNum (Int z) =>
          if safe_integer z then Normal (Some (dec_of_Z z), st1) else Beyond
      | VNum _ => Normal (Some "null", st1)
      | VBigInt _ => Throw TypeError
      | VUndefined => Normal (None, st1)
      | VArr l =>
          '(parts, st2) <-
            serialize_each (fun s k => SerializeJSONProperty f s k v)
                           (index_keys (List.length l)) st1 ;;
          Normal (Some (array_text parts), st2)
      | VObj ps =>
          '(parts, st2) <-
            serialize_each (fun s k => SerializeJSONProperty f s k v)
                           (map fst ps) st1 ;;
          Normal (Some (object_text (map fst ps) parts), st2)
      | VDate _ | VSet _ | VMap _ | VRegExp _ _ => Normal (Some "{}", st1)
      | VError _ _ _ => Beyond
      end
  end.

(** [JSON.stringify(data, replacer)]: the value is the property [""] of a
    wrapper object. *)
Definition JSON_stringify (fuel : nat) (st : St) (data : jsval)
  : completion (option string * St) :=
  SerializeJSONProperty fuel st "" (VObj [("", data)]).
End Stringify.

(** [JSON.stringify(data)], without a replacer. *)
Definition JSON_stringify_plain (fuel : nat) (data : jsval)
  : completion (option string) :=
  '(text, _) <- JSON_stringify (fun (st : unit) _ v => Normal (v, st))
                               fuel tt data ;;
  Normal text.

(** ** The module *)

(** [type NonJsonTypes]. *)
Inductive NonJsonTypes : Type :=
| TDate | TSet | TMap | TRegexp | TBigint | TUndefined
| TInfinity | TNegInfinity | TNan | TError.

(** The text of a tag. *)
Definition type_name (t : NonJsonTypes) : string :=
  match t with
  | TDate => "date"
  | TSet => "set"
  | TMap => "map"
  | TRegexp => "regexp"
  | TBigint => "bigint"
  | TUndefined => "undefined"
  | TInfinity => "infinity"
  | TNegInfinity => "-infinity"
  | TNan => "nan"
  | TError => "error"
  end.

(** [NonJsonTypes | 'object']. *)
Inductive EntryKind : Type :=
| KNon (t : NonJsonTypes)
| KObject.

(** [type EntryType]. *)
Record EntryType : Type := {
  type : EntryKind;
  value : jsval;
  count : nat;
  iteration : nat
}.

(** The variables [stack], [keys] and [meta] the replacer closes over.
    The head of a list is the top of the stack (the last element of the
    array). *)
Record state : Type := {
  st_stack : list EntryType;
  st_keys : list string;
  st_meta : list (string * NonJsonTypes)
}.

Definition initial : state :=
  {| st_stack := []; st_keys := [""]; st_meta := [] |}.

Definition bump (e : EntryType) : EntryType :=
  {| type := type e; value := value e; count := count e;
     iteration := S (iteration e) |}.

(** Lines 29-41: charge the visit to the top frame; if that frame has had
    its [count] visits already, pop it (and the key prefix of an object
    frame) and charge the frame below, which must exist. *)
Definition owner (st : state) : completion (option EntryType * state) :=
  match st_stack st with
  | [] => Normal (None, st)
  | top :: below =>
      let entry := bump top in
      if (count entry <? iteration entry)%nat then
        let keys := match type entry with
                    | KObject => tl (st_keys st)
                    | KNon _ => st_keys st
                    end in
        match below with
        | [] => Throw TypeError
        | next :: rest =>
            let entry := bump next in
            Normal (Some entry,
                    {| st_stack := entry :: rest; st_keys := keys;
                       st_meta := st_meta st |})
        end
      else
        Normal (Some entry,
                {| st_stack := entry :: below; st_keys := st_keys st;
                   st_meta := st_meta st |})
  end.

(** [keys[keys.length - 1]] inside a template: the text [undefined] when
    the array is empty. *)
Definition keys_top (ks : list string) : string :=
  match ks with
  | k :: _ => k
  | [] => "undefined"
  end.

Definition meta_set (metaKey : string) (t : NonJsonTypes) (st : state)
  : state :=
  {| st_stack := st_stack st; st_keys := st_keys st;
     st_meta := map_set metaKey t (st_meta st) |}.

Definition push_entry (e : EntryType) (st : state) : state :=
  {| st_stack := e :: st_stack st; st_keys := st_keys st;
     st_meta := st_meta st |}.

Definition push_key (k : string) (st : state) : state :=
  {| st_stack := st_stack st; st_keys := k :: st_keys st;
     st_meta := st_meta st |}.

(** Lines 48-74: the substitute, the count and the kind of an object
    value; the branch of an error pushes a frame of its own. *)
Definition classify (v : jsval) (st : state)
  : completion (jsval * nat * EntryKind * state) :=
  match v with
  | VDate None => Throw RangeError
  | VDate (Some t) => Normal (VStr (toISOString t), 0%nat, KNon TDate, st)
  | VSet l => Normal (VArr l, List.length l, KNon TSet, st)
  | VMap es =>
      let o := fromEntries es in
      Normal (VObj o, List.length o, KNon TMap, st)
  | VArr l => Normal (v, List.length l, KNon TUndefined, st)
  | VRegExp s f => Normal (VStr (regexp_text s f), 0%nat, KNon TRegexp, st)
  | VError n m s =>
      let o := VObj [("name", n); ("message", VStr m); ("stack", s)] in
      Normal (o, 0%nat, KNon TError,
              push_entry {| type := KObject; value := o; count := 3;
                            iteration := 0 |} st)
  | VObj ps => Normal (v, List.length ps, KObject, st)
  | _ => Normal (v, 0%nat, KNon TUndefined, st)
  end.

(** Lines 86-109, for a value that is no object. *)
Definition lower_primitive (metaKey : string) (v : jsval) (st : state)
  : jsval * state :=
  match v with
  | VBigInt z => (VStr (dec_of_Z z), meta_set metaKey TBigint st)
  | VNum PosInf => (VStr "Infinity", meta_set metaKey TInfinity st)
  | VNum NegInf => (VStr "-Infinity", meta_set metaKey TNegInfinity st)
  | VNum NaN => (VStr "NaN", meta_set metaKey TNan st)
  | VUndefined => (VNull, meta_set metaKey TUndefined st)
  | _ => (v, st)
  end.

(** [function replacer(key, value)]. *)
Definition replacer (st : state) (key : string) (value0 : jsval)
  : completion (jsval * state) :=
  '(entry, st) <- owner st ;;
  v <- match entry with
       | Some e => get_own (value e) key
       | None => Normal value0
       end ;;
  let metaKey := keys_top (st_keys st) ++ key in
  if is_object v then
    '(v1, n, t, st) <- classify v st ;;
    let st := match t with
              | KNon TUndefined | KObject => st
              | KNon t' => meta_set metaKey t' st
              end in
    if (n =? 0)%nat then
      (* the value is an object still: none of the tests of lines 86-108
         applies, and line 109 returns it *)
      Normal (v1, st)
    else
      let st := push_entry {| type := t; value := v1; count := n;
                              iteration := 0 |} st in
      let st := match t with
                | KObject => if (key =? "")%string then st
                             else push_key (metaKey ++ ".") st
                | KNon _ => st
                end in
      Normal (v1, st)
  else Normal (lower_primitive metaKey v st).

(** What [serialize] returns. *)
Record serialized : Type := {
  json : option string;
  meta : option (list (string * NonJsonTypes))
}.

(** [function serialize(data)].  The traversal is given the size of the
    data as fuel: its nesting never exceeds the nesting of the data. *)
Definition serialize (data : jsval) : completion serialized :=
  match data with
  | VNull => Normal {| json := Some "null"; meta := None |}
  | VUndefined => Normal {| json := None; meta := None |}
  | _ =>
      '(text, st) <- JSON_stringify replacer (S (jsval_size data)) initial data ;;
      Normal {| json := text;
                meta := match st_meta st with
                        | [] => None
                        | m => Some (fromEntries m)
                        end |}
  end.

(** The tag record as a value. *)
Definition meta_object (m : list (string * NonJsonTypes)) : jsval :=
  VObj (map (fun kt => (fst kt, VStr (type_name (snd kt)))) m).

Definition meta_value (m : option (list (string * NonJsonTypes))) : jsval :=
  match m with
  | Some m => meta_object m
  | None => VUndefined
  end.

Definition json_value (j : option string) : jsval :=
  match j with
  | Some t => VStr t
  | None => VUndefined
  end.

(** ** Restoring *)

Section Restore.

(** The engine's pattern grammar: the [source] of the regular expression
    built from a pattern and flags, [None] when the pattern is rejected. *)
Variable regexp_source : string -> string -> option string.

(** [new RegExp(pattern, flags)], for flags among dgimsuy. *)
Definition RegExp_new (pattern flags : string) : completion jsval :=
  if all_chars is_flag flags then
    if string_nodup flags then
      match regexp_source pattern flags with
      | Some src => Normal (VRegExp src (sort_flags flags))
      | None => Throw SyntaxError
      end
    else Throw SyntaxError
  else Beyond.

(** Lines 180-183: [new Error(value.message)], then [name] and [stack]
    assigned. *)
Definition Error_of (v : jsval) : completion jsval :=
  m <- get_own v "message" ;;
  msg <- match m with
         | VUndefined => Normal ""
         | _ => to_string m
         end ;;
  n <- get_own v "name" ;;
  s <- get_own v "stack" ;;
  Normal (VError n msg s).

(** The [switch] of [applyConversion] on a tag [name]: what is stored in
    the slot, [None] when no case applies. *)
Definition convert_case (name : string) (v : jsval)
  : completion (option jsval) :=
  if (name =? "date")%string then x <- Date_new v ;; Normal (Some x)
  else if (name =? "set")%string then x <- Set_new v ;; Normal (Some x)
  else if (name =? "map")%string then x <- Map_of_entries v ;; Normal (Some x)
  else if (name =? "regexp")%string then
    text <- to_string v ;;
    match regexp_exec text with
    | Some (body, flags) => x <- RegExp_new body flags ;; Normal (Some x)
    | None => Throw (InvalidRegexp text)
    end
  else if (name =? "bigint")%string then x <- BigInt_new v ;; Normal (Some x)
  else if (name =? "undefined")%string then Normal (Some VUndefined)
  else if (name =? "infinity")%string then Normal (Some (VNum PosInf))
  else if (name =? "-infinity")%string then Normal (Some (VNum NegInf))
  else if (name =? "nan")%string then Normal (Some (VNum NaN))
  else if (name =? "error")%string then x <- Error_of v ;; Normal (Some x)
  else Normal None.

(** The cases compare with [===]: a [type] that is no text matches
    none. *)
Definition convert (type : jsval) (v : jsval) : completion (option jsval) :=
  match type with
  | VStr name => convert_case name v
  | _ => Normal None
  end.

(** The last step of [applyConversion]: read the slot, convert, store. *)
Definition convert_slot (result : jsval) (key : string) (type : jsval)
  : completion (option jsval) :=
  v <- get_own result key ;;
  x <- convert type v ;;
  match x with
  | Some x => r <- set_own result key x ;; Normal (Some r)
  | None => Normal None
  end.

(** [function applyConversion(result, keys, type, depth)], by recursion
    on the keys from [depth] on.  The function mutates [result]; here it
    returns the mutated object, or [None] when nothing was stored. *)
Fixpoint applyConversion (result : jsval) (keys : list string) (type : jsval)
  : completion (option jsval) :=
  match keys with
  | [] => convert_slot result "undefined" type
  | [key] => convert_slot result key type
  | key :: rest =>
      child <- get_own result key ;;
      r <- applyConversion child rest type ;;
      match r with
      | Some child' => r' <- set_own result key child' ;; Normal (Some r')
      | None => Normal None
      end
  end.

(** Lines 129-132: the loop over the keys of [meta]. *)
Fixpoint apply_all (meta : jsval) (keys : list string) (result : jsval)
  : completion jsval :=
  match keys with
  | [] => Normal result
  | key :: rest =>
      type <- get_own meta key ;;
      r <- applyConversion result (split_dot key) type ;;
      apply_all meta rest (match r with Some r' => r' | None => result end)
  end.

(** [function deserialize({ json, meta })]. *)
Definition deserialize (json meta : jsval) : completion jsval :=
  if negb (truthy json) then Normal VNull
  else
    text <- to_string json ;;
    result <- JSON_parse text ;;
    if truthy meta then
      keys <- Object_keys meta ;;
      apply_all meta keys result
    else Normal result.

(** [function parse(json)].  The [delete] of line 213 acts on [data],
    which is not used afterwards: [deserialize] is given the text. *)
Definition parse (text : string) : completion jsval :=
  data <- JSON_parse text ;;
  j <- get_own data "__json__" ;;
  if truthy j then
    m <- get_own data "__meta__" ;;
    deserialize j m
  else
    m <- get_own data "__meta__" ;;
    if truthy m then deserialize (VStr text) m
    else Normal data.

End Restore.

(** A text between quotation marks, as the templates of [stringify]
    spell their keys. *)
Definition quoted (s : string) : string :=
  String "034" (s ++ String "034" EmptyString).

(** [function stringify(data)]. *)
Definition stringify (data : jsval) : completion (option string) :=
  r <- serialize data ;;
  match json r, meta r with
  | Some j, Some m =>
      if (j =? "")%string then Normal (Some j)
      else if String.prefix "{" j then
        mt <- JSON_stringify_plain (S (S (List.length m))) (meta_object m) ;;
        Normal (Some (String.substring 0 (String.length j - 2) j
                      ++ "," ++ quoted "__meta__" ++ ":"
                      ++ match mt with Some t => t | None => "undefined" end
                      ++ "}"))
      else if String.prefix "[" j then
        mt <- JSON_stringify_plain (S (S (List.length m))) (meta_object m) ;;
        Normal (Some ("{" ++ quoted "__json__" ++ String "034" ":"
                      ++ j ++ "," ++ quoted "__meta__" ++ ":"
                      ++ match mt with Some t => t | None => "undefined" end
                      ++ "}"))
      else Normal (Some j)
  | j, _ => Normal j
  end.

(** * Specification of the traversal *)

(** ** JSON values and their text *)

(** The values of the JSON grammar within the fragment.  The members of
    an object are listed in enumeration order: defining them one after
    the other yields the same list again. *)
Unset Elimination Schemes.

Inductive is_json : jsval -> Prop :=
| J_null : is_json VNull
| J_bool b : is_json (VBool b)
| J_num z : safe_integer z = true -> is_json (VNum (Int z))
| J_str s : is_json (VStr s)
| J_arr l : Forall is_json l -> is_json (VArr l)
| J_obj ps :
    fromEntries ps = ps ->
    Forall (fun kv => is_json (snd kv)) ps ->
    is_json (VObj ps).

Set Elimination Schemes.

Definition member_text (text : jsval -> string) (kv : string * jsval)
  : string :=
  QuoteJSONString (fst kv) ++ ":" ++ text (snd kv).

(** The text of a JSON value, without white space. *)
Fixpoint json_text (v : jsval) : string :=
  match v with
  | VNull => "null"
  | VBool true => "true"
  | VBool false => "false"
  | VNum (Int z) => dec_of_Z z
  | VStr s => QuoteJSONString s
  | VArr l => "[" ++ String.concat "," (map json_text l) ++ "]"
  | VObj ps => "{" ++ String.concat "," (map (member_text json_text) ps) ++ "}"
  | _ => ""
  end.

(** ** What the replacer is meant to compute *)

(** The tag of a value. *)
Definition own_tag (v : jsval) : option NonJsonTypes :=
  match v with
  | VDate _ => Some TDate
  | VSet _ => Some TSet
  | VMap _ => Some TMap
  | VRegExp _ _ => Some TRegexp
  | VError _ _ _ => Some TError
  | VBigInt _ => Some TBigint
  | VNum PosInf => Some TInfinity
  | VNum NegInf => Some TNegInfinity
  | VNum NaN => Some TNan
  | VUndefined => Some TUndefined
  | _ => None
  end.

(** Whether the replacer pushes a frame for a value. *)
Definition pushes (v : jsval) : bool :=
  match v with
  | VObj (_ :: _) | VArr (_ :: _) | VSet (_ :: _) | VMap (_ :: _)
  | VError _ _ _ => true
  | _ => false
  end.

(** The stand-in of a value that is no plain object with members. *)
Definition lower_leaf (v : jsval) : jsval :=
  match v with
  | VUndefined => VNull
  | VNum PosInf => VStr "Infinity"
  | VNum NegInf => VStr "-Infinity"
  | VNum NaN => VStr "NaN"
  | VBigInt z => VStr (dec_of_Z z)
  | VDate (Some t) => VStr (toISOString t)
  | VRegExp s f => VStr (regexp_text s f)
  | VSet l => VArr l
  | VMap es => VObj (fromEntries es)
  | VError n m s => VObj [("name", n); ("message", VStr m); ("stack", s)]
  | _ => v
  end.

(** The JSON value a tree of plain objects is lowered to. *)
Fixpoint lower (v : jsval) : jsval :=
  match v with
  | VObj ps => VObj (map (fun kv => (fst kv, lower (snd kv))) ps)
  | _ => lower_leaf v
  end.

(** The path of a key under a list of enclosing keys. *)
Definition path_text (segs : list string) : string := String.concat "." segs.

(** The tags of a tree of plain objects, in the order of the visits.
    [segs] are the keys from the root to the value, the key of the value
    last. *)
Fixpoint tags (segs : list string) (v : jsval)
  : list (list string * NonJsonTypes) :=
  match v with
  | VObj ps => flat_map (fun kv => tags (segs ++ [fst kv]) (snd kv)) ps
  | _ => match own_tag v with
         | Some t => [(segs, t)]
         | None => []
         end
  end.

Definition add_tags (ts : list (list string * NonJsonTypes))
  (m : list (string * NonJsonTypes)) : list (string * NonJsonTypes) :=
  fold_left (fun m st => map_set (path_text (fst st)) (snd st) m) ts m.

(** ** The values that round-trip *)

Definition dot_free (k : string) : bool :=
  all_chars (fun c => negb (Ascii.eqb c ".")) k.

(** A key that can be a segment of a path. *)
Definition key_ok (k : string) : Prop := k <> "" /\ dot_free k = true.

(** An array of the language holds at most [2^32 - 1] elements. *)
Definition array_length_ok (l : list jsval) : Prop :=
  (N.of_nat (List.length l) <= 4294967295)%N.

(** The time value of a date is read back from its text. *)
Definition reads_back (t : Z) : Prop := Date_parse (toISOString t) = Some t.

Section Trees.

Variable regexp_source : string -> string -> option string.

(** The values that push no frame and that the tag, if any, restores:
    the time value of a date is read back from its text, a regular
    expression is rebuilt from its own source and flags. *)
Inductive leaf_ok : jsval -> Prop :=
| L_undefined : leaf_ok VUndefined
| L_null : leaf_ok VNull
| L_bool b : leaf_ok (VBool b)
| L_int z : safe_integer z = true -> leaf_ok (VNum (Int z))
| L_posinf : leaf_ok (VNum PosInf)
| L_neginf : leaf_ok (VNum NegInf)
| L_nan : leaf_ok (VNum NaN)
| L_str s : leaf_ok (VStr s)
| L_bigint z : leaf_ok (VBigInt z)
| L_date t : reads_back t -> leaf_ok (VDate (Some t))
| L_regexp s f :
    regexp_exec (regexp_text s f) = Some (s, f) ->
    RegExp_new regexp_source s f = Normal (VRegExp s f) ->
    leaf_ok (VRegExp s f)
| L_set : leaf_ok (VSet [])
| L_map : leaf_ok (VMap [])
| L_arr : leaf_ok (VArr [])
| L_obj : leaf_ok (VObj []).

(** Trees of plain objects over such leaves and over containers of JSON
    values: arrays, sets of distinct elements, maps with text keys in
    enumeration order, and an error with a text for its name and its
    stack after which no visit follows.  [tree followed v]: every key is
    a path segment, and of the frames pushed inside [v] at most one (that
    of [v]) is still to pop when the visit of [v] is over, if another
    visit follows ([followed = true]): a container that is followed ends
    with a value that pushes no frame. *)
Inductive tree : bool -> jsval -> Prop :=
| T_leaf f v : leaf_ok v -> tree f v
| T_obj f p ps :
    fromEntries (p :: ps) = p :: ps ->
    members f (p :: ps) ->
    tree f (VObj (p :: ps))
| T_arr f x xs :
    array_length_ok (x :: xs) ->
    is_json (VArr (x :: xs)) -> elements f (x :: xs) ->
    tree f (VArr (x :: xs))
| T_set f x xs :
    array_length_ok (x :: xs) ->
    is_json (VArr (x :: xs)) -> set_add_all [] (x :: xs) = x :: xs ->
    elements f (x :: xs) ->
    tree f (VSet (x :: xs))
| T_map f p ps :
    is_json (VObj (p :: ps)) -> members f (p :: ps) ->
    tree f (VMap (p :: ps))
| T_error n m s : tree false (VError (VStr n) m (VStr s))
with members : bool -> list (string * jsval) -> Prop :=
| M_last f k v :
    key_ok k -> tree f v -> (f = true -> pushes v = false) ->
    members f [(k, v)]
| M_cons f k v q r :
    key_ok k -> tree true v -> members f (q :: r) ->
    members f ((k, v) :: q :: r)
with elements : bool -> list jsval -> Prop :=
| E_last f v :
    tree f v -> (f = true -> pushes v = false) -> elements f [v]
| E_cons f v w r :
    tree true v -> elements f (w :: r) -> elements f (v :: w :: r).

(** Induction on the three judgements at once. *)
Section Minimality.
Variables (P : bool -> jsval -> Prop)
  (Pm : bool -> list (string * jsval) -> Prop)
  (Pe : bool -> list jsval -> Prop).
Hypothesis case_leaf : forall f v, leaf_ok v -> P f v.
Hypothesis case_obj : forall f p ps,
  fromEntries (p :: ps) = p :: ps -> members f (p :: ps) -> Pm f (p :: ps) ->
  P f (VObj (p :: ps)).
Hypothesis case_arr : forall f x xs,
  array_length_ok (x :: xs) ->
  is_json (VArr (x :: xs)) -> elements f (x :: xs) -> Pe f (x :: xs) ->
  P f (VArr (x :: xs)).
Hypothesis case_set : forall f x xs,
  array_length_ok (x :: xs) ->
  is_json (VArr (x :: xs)) -> set_add_all [] (x :: xs) = x :: xs ->
  elements f (x :: xs) -> Pe f (x :: xs) ->
  P f (VSet (x :: xs)).
Hypothesis case_map : forall f p ps,
  is_json (VObj (p :: ps)) -> members f (p :: ps) -> Pm f (p :: ps) ->
  P f (VMap (p :: ps)).
Hypothesis case_error : forall n m s, P false (VError (VStr n) m (VStr s)).
Hypothesis case_last : forall f k v,
  key_ok k -> tree f v -> P f v -> (f = true -> pushes v = false) ->
  Pm f [(k, v)].
Hypothesis case_cons : forall f k v q r,
  key_ok k -> tree true v -> P true v -> members f (q :: r) ->
  Pm f (q :: r) -> Pm f ((k, v) :: q :: r).
Hypothesis case_elast : forall f v,
  tree f v -> P f v -> (f = true -> pushes v = false) -> Pe f [v].
Hypothesis case_econs : forall f v w r,
  tree true v -> P true v -> elements f (w :: r) -> Pe f (w :: r) ->
  Pe f (v :: w :: r).

Fixpoint tree_min (f : bool) (v : jsval) (t : tree f v) {struct t} : P f v :=
  match t in tree f v return P f v with
  | @T_leaf f v l => @case_leaf f v l
  | @T_obj f p ps c m => @case_obj f p ps c m (members_min m)
  | @T_arr f x xs a j e => @case_arr f x xs a j e (elements_min e)
  | @T_set f x xs a j d e => @case_set f x xs a j d e (elements_min e)
  | @T_map f p ps j m => @case_map f p ps j m (members_min m)
  | @T_error n m s => @case_error n m s
  end
with members_min (f : bool) (l : list (string * jsval)) (m : members f l)
  {struct m} : Pm f l :=
  match m in members f l return Pm f l with
  | @M_last f k v hk t hp => @case_last f k v hk t (tree_min t) hp
  | @M_cons f k v q r hk t m' =>
      @case_cons f k v q r hk t (tree_min t) m' (members_min m')
  end
with elements_min (f : bool) (l : list jsval) (e : elements f l)
  {struct e} : Pe f l :=
  match e in elements f l return Pe f l with
  | @E_last f v t hp => @case_elast f v t (tree_min t) hp
  | @E_cons f v w r t e' =>
      @case_econs f v w r t (tree_min t) e' (elements_min e')
  end.

Lemma tree_members_ind :
  (forall f v, tree f v -> P f v)
  /\ (forall f l, members f l -> Pm f l)
  /\ (forall f l, elements f l -> Pe f l).
Proof.
  split; [exact tree_min|split; [exact members_min|exact elements_min]].
Qed.

End Minimality.

End Trees.


Unset Implicit Arguments.

(** * Properties *)

(** ** Text *)

Lemma append_assoc (s1 s2 s3 : string) : (s1 ++ s2) ++ s3 = s1 ++ (s2 ++ s3).
Proof. induction s1 as [|c s1 IH]; simpl; [reflexivity | now rewrite IH]. Qed.

Lemma append_nil_r (s : string) : s ++ "" = s.
Proof. induction s as [|c s IH]; simpl; [reflexivity | now rewrite IH]. Qed.

Lemma length_append (s1 s2 : string) :
  String.length (s1 ++ s2) = (String.length s1 + String.length s2)%nat.
Proof. induction s1 as [|c s1 IH]; simpl; [reflexivity | now rewrite IH]. Qed.

(** A text that ends a JSON value inside a container or at the end. *)
Definition terminated (rest : string) : bool :=
  match rest with
  | EmptyString => true
  | String c _ => Ascii.eqb c "," || Ascii.eqb c "]" || Ascii.eqb c "}"
  end.

Lemma uint_digits (d : Decimal.uint) :
  all_chars is_digit (NilEmpty.string_of_uint d) = true.
Proof. induction d; simpl; auto. Qed.

Lemma span_all (p : ascii -> bool) (s rest : string) :
  all_chars p s = true ->
  match rest with String c _ => p c = false | EmptyString => True end ->
  span p (s ++ rest) = (s, rest).
Proof.
  intros Hs Hr. induction s as [|c s IH]; simpl in *.
  - destruct rest as [|c r]; [reflexivity|]. simpl. now rewrite Hr.
  - apply andb_prop in Hs as [Hc Hs]. rewrite Hc, (IH Hs). reflexivity.
Qed.

Lemma terminated_not_digit (rest : string) :
  terminated rest = true ->
  match rest with String c _ => is_digit c = false | EmptyString => True end.
Proof.
  destruct rest as [|c r]; [trivial|]. simpl. intros H.
  apply orb_prop in H as [H|H]; [apply orb_prop in H as [H|H]|];
    apply Ascii.eqb_eq in H; subst; reflexivity.
Qed.

Lemma Z_of_dec_of_Z (z : Z) : Z_of_dec (dec_of_Z z) = Some z.
Proof.
  unfold Z_of_dec, dec_of_Z.
  rewrite NilZero.isi.
  - rewrite DecimalZ.of_to. now rewrite String.eqb_refl.
  - destruct z; simpl; try discriminate.
    intros H. injection H as H. now apply Unsigned.to_uint_nonnil in H.
  - destruct z; simpl; try discriminate.
    intros H. injection H as H. now apply Unsigned.to_uint_nonnil in H.
Qed.

Lemma pos_uint_text (p : positive) :
  exists c r, NilZero.string_of_uint (Pos.to_uint p) = String c r
              /\ is_digit c = true /\ all_chars is_digit r = true.
Proof.
  pose proof (Unsigned.to_uint_nonnil p) as Hn.
  pose proof (uint_digits (Pos.to_uint p)) as Hd.
  unfold NilZero.string_of_uint.
  destruct (Pos.to_uint p); try congruence; simpl in *;
    eexists _, _; (split; [reflexivity|]); split; auto.
Qed.

Lemma not_continued (rest : string) :
  terminated rest = true ->
  match rest with
  | String c _ => (Ascii.eqb c "." || Ascii.eqb c "e" || Ascii.eqb c "E")
  | EmptyString => false
  end = false.
Proof.
  destruct rest as [|c r]; [reflexivity|]. simpl. intros Hr.
  apply orb_prop in Hr as [H|H]; [apply orb_prop in H as [H|H]|];
    apply Ascii.eqb_eq in H; subst; reflexivity.
Qed.

Lemma parse_number_pos (c : ascii) (r rest : string) (z : Z) :
  is_digit c = true -> all_chars is_digit r = true ->
  Z_of_dec (String c r) = Some z ->
  safe_integer z = true -> terminated rest = true ->
  parse_number (String c r ++ rest) = Normal (VNum (Int z), rest).
Proof.
  intros Hc Hr Hz Hs Ht. unfold parse_number.
  replace (match String c r ++ rest with
           | String "-"%char r0 => (true, r0)
           | _ => (false, String c r ++ rest)
           end) with (false, String c r ++ rest).
  2:{ simpl. destruct c as [[] [] [] [] [] [] [] []]; try reflexivity.
      discriminate Hc. }
  rewrite (span_all is_digit (String c r) rest);
    [|simpl; now rewrite Hc|now apply terminated_not_digit].
  rewrite (not_continued rest Ht), Hz, Hs. reflexivity.
Qed.

Lemma parse_number_neg (c : ascii) (r rest : string) (z : Z) :
  is_digit c = true -> all_chars is_digit r = true ->
  Z_of_dec (String "-" (String c r)) = Some z ->
  safe_integer z = true -> terminated rest = true ->
  parse_number (String "-" (String c r) ++ rest) = Normal (VNum (Int z), rest).
Proof.
  intros Hc Hr Hz Hs Ht. unfold parse_number.
  change (String "-" (String c r) ++ rest)
    with (String "-" (String c r ++ rest)). cbv iota beta.
  rewrite (span_all is_digit (String c r) rest);
    [|simpl; now rewrite Hc|now apply terminated_not_digit].
  rewrite (not_continued rest Ht). simpl append. rewrite Hz, Hs. reflexivity.
Qed.

(** The text of an integer: a digit, or a minus sign and a digit, then
    digits. *)
Lemma dec_of_Z_shape (z : Z) :
  exists c r, is_digit c = true /\ all_chars is_digit r = true
              /\ (dec_of_Z z = String c r \/ dec_of_Z z = String "-" (String c r)).
Proof.
  unfold dec_of_Z. destruct z as [|p|p]; simpl.
  - exists "0"%char, "". auto.
  - destruct (pos_uint_text p) as (c & r & E & Hc & Hr).
    exists c, r. rewrite E. auto.
  - destruct (pos_uint_text p) as (c & r & E & Hc & Hr).
    exists c, r. rewrite E. auto.
Qed.

Lemma parse_number_dec (z : Z) (rest : string) :
  safe_integer z = true -> terminated rest = true ->
  parse_number (dec_of_Z z ++ rest) = Normal (VNum (Int z), rest).
Proof.
  intros Hz Hr.
  pose proof (Z_of_dec_of_Z z) as Hround.
  destruct (dec_of_Z_shape z) as (c & r & Hc & Hd & [E|E]); rewrite E in *.
  - now apply parse_number_pos.
  - now apply parse_number_neg.
Qed.

(** ** JSON strings *)

Lemma parse_chars_quote_char (c : ascii) (t : string) :
  parse_chars (quote_char c ++ t) = push_char c (parse_chars t).
Proof.
  destruct c as [[] [] [] [] [] [] [] []]; reflexivity.
Qed.

Lemma parse_chars_quote (s rest : string) :
  parse_chars (quote_chars s ++ String "034" rest) = Normal (s, rest).
Proof.
  induction s as [|c s IH]; simpl.
  - reflexivity.
  - rewrite append_assoc, parse_chars_quote_char, IH. reflexivity.
Qed.

(** ** JSON values *)

Lemma digit_dispatch (c : ascii) :
  is_digit c = true ->
  is_ws c = false /\ Ascii.eqb c "{" = false /\ Ascii.eqb c "[" = false
  /\ Ascii.eqb c "034" = false.
Proof.
  destruct c as [[] [] [] [] [] [] [] []]; try discriminate; auto.
Qed.

Lemma parse_value_number (f : nat) (z : Z) (rest : string) :
  safe_integer z = true -> terminated rest = true ->
  parse_value (S f) (dec_of_Z z ++ rest) = Normal (VNum (Int z), rest).
Proof.
  intros Hz Hr. pose proof (parse_number_dec z rest Hz Hr) as Hn.
  destruct (dec_of_Z_shape z) as (c & r & Hc & Hd & [E|E]); rewrite E in *.
  - destruct (digit_dispatch c Hc) as (H1 & H2 & H3 & H4).
    simpl. rewrite H1, H2, H3, H4, Hc, orb_true_r. exact Hn.
  - exact Hn.
Qed.

(** The first character of the text of a JSON value is no white space
    and closes no container. *)
Definition opens (s : string) : Prop :=
  match s with
  | String c _ => is_ws c = false /\ c <> "]"%char /\ c <> "}"%char
  | EmptyString => False
  end.

Lemma opens_skip (s : string) : opens s -> skip_ws s = s.
Proof. destruct s as [|c r]; simpl; [tauto|]. now intros [-> _]. Qed.

Lemma opens_app (s t : string) : opens s -> opens (s ++ t).
Proof. destruct s; simpl; tauto. Qed.

Lemma json_text_opens (v : jsval) : is_json v -> opens (json_text v).
Proof.
  intros H. destruct H as [|b|z Hz|s|l Hl|ps Hc Hps]; simpl;
    try (repeat split; congruence).
  - destruct b; simpl; repeat split; congruence.
  - destruct (dec_of_Z_shape z) as (c & r & Hd & _ & [E|E]); rewrite E; simpl.
    + destruct (digit_dispatch c Hd) as (H1 & _).
      repeat split; auto; intros ->; discriminate.
    + repeat split; congruence.
Qed.

Lemma length_text_pos (v : jsval) :
  is_json v -> (0 < String.length (json_text v))%nat.
Proof.
  intros H. apply json_text_opens in H.
  destruct (json_text v); simpl in *; [tauto | lia].
Qed.

Definition parses (v : jsval) : Prop :=
  forall fuel rest,
    (String.length (json_text v) < fuel)%nat -> terminated rest = true ->
    parse_value fuel (json_text v ++ rest) = Normal (v, rest).

Lemma concat_cons2 (sep x y : string) (l : list string) :
  String.concat sep (x :: y :: l) = x ++ sep ++ String.concat sep (y :: l).
Proof. reflexivity. Qed.

Lemma parse_elems_text (l : list jsval) :
  l <> [] -> Forall is_json l -> Forall parses l ->
  forall f acc rest,
    (1 + String.length (String.concat "," (map json_text l)) < f)%nat ->
    parse_elems f (String.concat "," (map json_text l) ++ String "]" rest) acc
    = Normal (VArr (acc ++ l), rest).
Proof.
  induction l as [|x l IH]; [congruence|]. intros _ Hj Hp f acc rest Hf.
  inversion Hj as [|? ? Hjx Hjl]; subst. inversion Hp as [|? ? Hpx Hpl]; subst.
  destruct f as [|f]; [lia|]. destruct l as [|y l].
  - simpl in *. rewrite Hpx; [|lia|reflexivity]. reflexivity.
  - simpl map in *. rewrite concat_cons2 in *.
    remember (String.concat "," (json_text y :: map json_text l)) as body.
    rewrite !length_append in Hf. simpl in Hf.
    rewrite append_assoc. cbn [parse_elems].
    rewrite Hpx; [|lia|reflexivity].
    cbn [bind append skip_ws is_ws]. subst body.
    rewrite (IH ltac:(congruence) Hjl Hpl); [|lia].
    now rewrite <- app_assoc.
Qed.

Lemma parse_members_text (ps : list (string * jsval)) :
  ps <> [] -> Forall (fun kv => is_json (snd kv)) ps ->
  Forall (fun kv => parses (snd kv)) ps ->
  forall f acc rest,
    (1 + String.length (String.concat "," (map (member_text json_text) ps)) < f)%nat ->
    parse_members f
      (String.concat "," (map (member_text json_text) ps) ++ String "}" rest) acc
    = Normal (VObj (fold_left (fun o kv => obj_set (fst kv) (snd kv) o) ps acc),
              rest).
Proof.
  induction ps as [|[k x] ps IH]; [congruence|]. intros _ Hj Hp f acc rest Hf.
  inversion Hj as [|? ? Hjx Hjl]; subst. inversion Hp as [|? ? Hpx Hpl]; subst.
  simpl in Hjx, Hpx.
  destruct f as [|f]; [lia|]. destruct ps as [|q ps].
  - simpl String.concat in *. unfold member_text, QuoteJSONString in *.
    simpl fst in *. simpl snd in *.
    rewrite !length_append in Hf. simpl in Hf.
    rewrite !append_assoc.
    cbn [parse_members append skip_ws is_ws].
    rewrite ?append_assoc. cbn [append]. rewrite parse_chars_quote. cbn [bind append skip_ws is_ws].
    rewrite Hpx; [|lia|reflexivity].
    reflexivity.
  - simpl map in *. rewrite concat_cons2 in *.
    remember (String.concat "," (member_text json_text q
                                 :: map (member_text json_text) ps)) as body.
    unfold member_text at 1, QuoteJSONString. unfold member_text at 1 in Hf.
    unfold QuoteJSONString in Hf.
    simpl fst in *. simpl snd in *.
    rewrite !length_append in Hf. simpl in Hf.
    rewrite !append_assoc.
    cbn [parse_members append skip_ws is_ws].
    rewrite ?append_assoc. cbn [append]. rewrite parse_chars_quote. cbn [bind append skip_ws is_ws].
    rewrite Hpx; [|lia|reflexivity].
    cbn [bind append skip_ws is_ws]. subst body.
    rewrite (IH ltac:(congruence) Hjl Hpl); [|lia].
    reflexivity.
Qed.

Lemma parse_value_text (v : jsval) : is_json v -> parses v.
Proof.
  induction v using jsval_ind; intros Hj; inversion Hj; subst;
    intros fuel rest Hf Ht; (destruct fuel as [|f]; [simpl in Hf; lia|]).
  - reflexivity.
  - destruct b; reflexivity.
  - now apply parse_value_number.
  - cbn [json_text]. unfold QuoteJSONString. 
    cbn [parse_value append skip_ws is_ws Ascii.eqb Bool.eqb].
    rewrite append_assoc. cbn [append].
    rewrite parse_chars_quote. reflexivity.
  - destruct l as [|x l]; [reflexivity|].
    assert (Hp : Forall parses (x :: l)).
    { rewrite Forall_forall in *. intros y Hy. apply H; auto. }
    cbn [json_text].
    cbn [parse_value append skip_ws is_ws Ascii.eqb Bool.eqb].
    rewrite append_assoc. cbn [append].
    assert (Ho : opens (String.concat "," (map json_text (x :: l)) ++ String "]" rest)).
    { apply opens_app. destruct l; simpl; [|apply opens_app];
        apply json_text_opens; now inversion H1. }
    rewrite (opens_skip _ Ho).
    destruct (String.concat "," (map json_text (x :: l)) ++ String "]" rest)
      as [|c r] eqn:E; [destruct Ho|].
    destruct Ho as (_ & Hc & _).
    replace (match String c r with
             | String "]"%char r1 => Normal (VArr [], r1)
             | _ => parse_elems f (String c r) []
             end) with (parse_elems f (String c r) []).
    2:{ destruct c as [[] [] [] [] [] [] [] []]; try reflexivity.
        now contradiction Hc. }
    rewrite <- E. rewrite parse_elems_text; auto; try congruence.
    cbn [json_text String.length append] in Hf.
    rewrite !length_append in Hf. cbn [String.length] in Hf. lia.
  - destruct ps as [|p ps]; [reflexivity|].
    assert (Hp : Forall (fun kv => parses (snd kv)) (p :: ps)).
    { rewrite Forall_forall in *. intros y Hy. apply H; auto. }
    cbn [json_text].
    cbn [parse_value append skip_ws is_ws Ascii.eqb Bool.eqb].
    rewrite append_assoc. cbn [append].
    assert (E : exists r, String.concat "," (map (member_text json_text) (p :: ps))
                          ++ String "}" rest = String "034" r).
    { destruct ps; simpl; unfold member_text, QuoteJSONString; simpl;
        eexists; reflexivity. }
    destruct E as [r E]. rewrite E. cbn [skip_ws is_ws]. rewrite <- E.
    rewrite parse_members_text; auto; try congruence.
    + unfold fromEntries in H1. now rewrite H1.
    + cbn [json_text String.length append] in Hf.
      rewrite !length_append in Hf. cbn [String.length] in Hf. lia.
Qed.

(** [JSON.parse] reads back the text of a JSON value. *)
Lemma JSON_parse_text (v : jsval) :
  is_json v -> JSON_parse (json_text v) = Normal v.
Proof.
  intros Hj. unfold JSON_parse.
  rewrite <- (append_nil_r (json_text v)) at 2.
  rewrite (parse_value_text v Hj); [reflexivity|lia|reflexivity].
Qed.

(** ** Property tables *)

Section PropsFacts.
Context {A : Type}.
Implicit Types (l : list (string * A)) (k : string) (x : A).

Lemma replace_keys k x l l' :
  replace k x l = Some l' -> map fst l' = map fst l.
Proof.
  revert l'. induction l as [|[k' y] l IH]; simpl; intros l' H; [discriminate|].
  destruct (String.eqb_spec k k') as [->|Hne].
  - now injection H as <-.
  - destruct (replace k x l) as [l0|]; [|discriminate].
    injection H as <-. simpl. now rewrite (IH l0 eq_refl).
Qed.

Lemma replace_none k x l :
  replace k x l = None <-> ~ In k (map fst l).
Proof.
  induction l as [|[k' y] l IH]; simpl.
  - tauto.
  - destruct (String.eqb_spec k k') as [->|Hne].
    + split; [discriminate|]. intros H. exfalso. auto.
    + destruct (replace k x l); simpl.
      * split; [discriminate|]. intros H. exfalso. apply H. right.
        destruct IH as [_ IH]. 
        destruct (in_dec string_dec k (map fst l)) as [Hi|Hi]; [assumption|].
        now specialize (IH Hi).
      * split; [|reflexivity]. intros _ [H|H]; [congruence|].
        now apply (proj1 IH).
Qed.

Lemma insert_index_keys n k x l k' :
  In k' (map fst (insert_index n k x l)) <-> k' = k \/ In k' (map fst l).
Proof.
  induction l as [|[k0 y] l IH]; simpl.
  - intuition congruence.
  - destruct (array_index k0) as [m|]; [destruct (n <? m)%N|]; simpl;
      try rewrite IH; intuition congruence.
Qed.

Lemma insert_index_nodup n k x l :
  ~ In k (map fst l) -> NoDup (map fst l) ->
  NoDup (map fst (insert_index n k x l)).
Proof.
  induction l as [|[k0 y] l IH]; simpl; intros Hk Hn.
  - constructor; [tauto|constructor].
  - inversion Hn as [|? ? Hk0 Hl]; subst.
    destruct (array_index k0) as [m|]; [destruct (n <? m)%N|]; simpl.
    + constructor; [simpl; tauto|assumption].
    + constructor; [|apply IH; tauto].
      rewrite insert_index_keys. intuition congruence.
    + constructor; [simpl; tauto|assumption].
Qed.

Lemma obj_set_nodup k x l :
  NoDup (map fst l) -> NoDup (map fst (obj_set k x l)).
Proof.
  intros Hn. unfold obj_set. destruct (replace k x l) as [l'|] eqn:E.
  - now rewrite (replace_keys _ _ _ _ E).
  - apply replace_none in E. destruct (array_index k).
    + now apply insert_index_nodup.
    + rewrite map_app. simpl. apply NoDup_app; auto.
      * constructor; [tauto|constructor].
      * intros a Ha [<-|[]]. tauto.
Qed.

Lemma fold_obj_set_nodup (es : list (string * A)) l :
  NoDup (map fst l) ->
  NoDup (map fst (fold_left (fun o kv => obj_set (fst kv) (snd kv) o) es l)).
Proof.
  revert l. induction es as [|e es IH]; simpl; intros l Hn; [assumption|].
  apply IH. now apply obj_set_nodup.
Qed.

Lemma fromEntries_nodup (es : list (string * A)) :
  NoDup (map fst (fromEntries es)).
Proof. apply fold_obj_set_nodup. constructor. Qed.

Lemma lookup_app k x (pre r : list (string * A)) :
  ~ In k (map fst pre) -> lookup k (pre ++ (k, x) :: r) = Some x.
Proof.
  induction pre as [|[k' y] pre IH]; simpl; intros H.
  - now rewrite String.eqb_refl.
  - destruct (String.eqb_spec k k') as [->|Hne]; [tauto|]. apply IH. tauto.
Qed.

Lemma lookup_in k l : NoDup (map fst l) -> forall x, In (k, x) l -> lookup k l = Some x.
Proof.
  induction l as [|[k' y] l IH]; simpl; intros Hn x Hi; [tauto|].
  inversion Hn as [|? ? Hk Hl]; subst.
  destruct (String.eqb_spec k k') as [->|Hne].
  - destruct Hi as [E|Hi]; [congruence|].
    exfalso. apply Hk. now apply (in_map fst) in Hi.
  - destruct Hi as [E|Hi]; [congruence|]. now apply IH.
Qed.

Lemma lookup_none k l : ~ In k (map fst l) -> lookup k l = None.
Proof.
  induction l as [|[k' y] l IH]; simpl; intros H; [reflexivity|].
  destruct (String.eqb_spec k k') as [->|Hne]; [tauto|]. apply IH. tauto.
Qed.

End PropsFacts.

(** ** Paths *)

(** The key prefix of the children of the object reached by [segs]. *)
Definition prefix_text (segs : list string) : string :=
  String.concat "" (map (fun s => s ++ ".") segs).

Lemma concat_empty_app (l1 l2 : list string) :
  String.concat "" (l1 ++ l2) = String.concat "" l1 ++ String.concat "" l2.
Proof.
  induction l1 as [|x l1 IH]; [reflexivity|].
  destruct l1 as [|y l1].
  - simpl. destruct l2; simpl; [now rewrite append_nil_r | reflexivity].
  - change ((x :: y :: l1) ++ l2)%list with (x :: y :: (l1 ++ l2))%list.
    rewrite !concat_cons2. change (y :: l1 ++ l2)%list with ((y :: l1) ++ l2)%list.
    rewrite IH. simpl. now rewrite append_assoc.
Qed.

Lemma prefix_text_snoc (segs : list string) (k : string) :
  prefix_text (segs ++ [k]) = prefix_text segs ++ k ++ ".".
Proof.
  unfold prefix_text. rewrite map_app, concat_empty_app. reflexivity.
Qed.

Lemma path_text_snoc (segs : list string) (k : string) :
  path_text (segs ++ [k]) = prefix_text segs ++ k.
Proof.
  unfold path_text, prefix_text. induction segs as [|s segs IH]; [reflexivity|].
  destruct segs as [|s' segs].
  - simpl. now rewrite append_assoc.
  - change ((s :: s' :: segs) ++ [k])%list with (s :: s' :: (segs ++ [k]))%list.
    rewrite concat_cons2. change (s' :: segs ++ [k])%list with ((s' :: segs) ++ [k])%list.
    rewrite IH. simpl map. rewrite concat_cons2. simpl.
    now rewrite !append_assoc.
Qed.

(** ** Array indices *)

Lemma to_uint_nonnil (n : N) : N.to_uint n <> Decimal.Nil.
Proof.
  destruct n as [|p]; [discriminate|]. apply DecimalPos.Unsigned.to_uint_nonnil.
Qed.

Lemma array_index_dec (n : N) :
  (n < 4294967295)%N -> array_index (dec_of_N n) = Some n.
Proof.
  intros H. unfold array_index, dec_of_N.
  rewrite (NilZero.usu _ (to_uint_nonnil n)), DecimalN.Unsigned.of_to.
  rewrite String.eqb_refl. apply N.ltb_lt in H. now rewrite H.
Qed.

Lemma dec_of_N_nonempty (n : N) : dec_of_N n <> "".
Proof.
  unfold dec_of_N. pose proof (to_uint_nonnil n) as H.
  destruct (N.to_uint n); try congruence; discriminate.
Qed.

Lemma get_own_index (l : list jsval) (i : nat) :
  array_length_ok l -> (i < List.length l)%nat ->
  get_own (VArr l) (dec_of_N (N.of_nat i)) = Normal (nth i l VUndefined).
Proof.
  intros Hl Hi. unfold array_length_ok in Hl. cbn [get_own].
  rewrite array_index_dec by lia. now rewrite Nat2N.id.
Qed.

(** ** JSON values are their own stand-in and bear no tag *)

Lemma json_lower (v : jsval) : is_json v -> lower v = v.
Proof.
  induction v using jsval_ind; intros Hj; inversion Hj; subst; try reflexivity.
  cbn [lower]. f_equal. rewrite <- (map_id ps) at 2. apply map_ext_in.
  intros [k c] Hi. simpl. f_equal.
  rewrite Forall_forall in H, H2. apply (H (k, c) Hi). apply (H2 (k, c) Hi).
Qed.

Lemma flat_map_nil (A B : Type) (g : A -> list B) (l : list A) :
  (forall x, In x l -> g x = []) -> flat_map g l = [].
Proof.
  induction l as [|x l IH]; intros H; [reflexivity|]. simpl.
  rewrite (H x) by now left. apply IH. intros y Hy. apply H. now right.
Qed.

Lemma json_tags (v : jsval) : is_json v -> forall segs, tags segs v = [].
Proof.
  induction v using jsval_ind; intros Hj segs; inversion Hj; subst;
    try reflexivity.
  cbn [tags]. rewrite Forall_forall in H, H2. apply flat_map_nil.
  intros [k c] Hi. apply (H (k, c) Hi). apply (H2 (k, c) Hi).
Qed.

Lemma json_elements (l : list jsval) :
  is_json (VArr l) -> Forall is_json l.
Proof. intros H. now inversion H. Qed.

Lemma json_members (ps : list (string * jsval)) :
  is_json (VObj ps) ->
  fromEntries ps = ps /\ Forall (fun kv => is_json (snd kv)) ps.
Proof. intros H. now inversion H. Qed.

(** ** The traversal of a tree *)

Definition frame (t : EntryKind) (v : jsval) (n i : nat) : EntryType :=
  {| type := t; value := v; count := n; iteration := i |}.

(** The state is at the frame [F]: [F] is on top of [rest], or under one
    frame that has had all its visits and is popped by the next call;
    [K] is the stack of key prefixes once that frame is popped. *)
Inductive at_owner (F : EntryType) (rest : list EntryType) (K : list string)
  (st : state) : Prop :=
| AO_top :
    st_stack st = F :: rest -> st_keys st = K -> at_owner F rest K st
| AO_object p kp :
    st_stack st = p :: F :: rest -> type p = KObject ->
    (count p <= iteration p)%nat -> st_keys st = kp :: K ->
    at_owner F rest K st
| AO_other p t :
    st_stack st = p :: F :: rest -> type p = KNon t ->
    (count p <= iteration p)%nat -> st_keys st = K ->
    at_owner F rest K st.

Lemma owner_at (F : EntryType) rest K st :
  at_owner F rest K st -> (iteration F < count F)%nat ->
  owner st = Normal (Some (bump F),
                     {| st_stack := bump F :: rest; st_keys := K;
                        st_meta := st_meta st |}).
Proof.
  intros H Hlt. unfold owner. destruct H as [Hs Hk|p kp Hs Ht Hc Hk|p t Hs Ht Hc Hk];
    rewrite Hs; cbn [bump count iteration type].
  - replace (count F <? S (iteration F))%nat with false
      by (symmetry; apply Nat.ltb_ge; lia).
    now rewrite Hk.
  - replace (count p <? S (iteration p))%nat with true
      by (symmetry; apply Nat.ltb_lt; lia).
    rewrite Ht, Hk. reflexivity.
  - replace (count p <? S (iteration p))%nat with true
      by (symmetry; apply Nat.ltb_lt; lia).
    rewrite Ht, Hk. reflexivity.
Qed.

Definition tag_leaf (metaKey : string) (v : jsval)
  (m : list (string * NonJsonTypes)) : list (string * NonJsonTypes) :=
  match own_tag v with
  | Some t => map_set metaKey t m
  | None => m
  end.

Section Traversal.
Variable regexp_source : string -> string -> option string.

Lemma leaf_pushes (v : jsval) : leaf_ok regexp_source v -> pushes v = false.
Proof. destruct 1; reflexivity. Qed.

Lemma leaf_lower (v : jsval) : leaf_ok regexp_source v -> lower v = lower_leaf v.
Proof. destruct 1; reflexivity. Qed.

Lemma leaf_tags (v : jsval) segs :
  leaf_ok regexp_source v ->
  tags segs v = match own_tag v with Some t => [(segs, t)] | None => [] end.
Proof. destruct 1; reflexivity. Qed.

(** The replacer on a leaf. *)
Lemma replacer_leaf (x : jsval) st k v0 F rest K :
  leaf_ok regexp_source x ->
  at_owner F rest K st -> (iteration F < count F)%nat ->
  get_own (value F) k = Normal x ->
  replacer st k v0
  = Normal (lower_leaf x,
            {| st_stack := bump F :: rest; st_keys := K;
               st_meta := tag_leaf (keys_top K ++ k) x (st_meta st) |}).
Proof.
  intros Hl Ha Hlt Hg. unfold replacer. rewrite (owner_at F rest K st Ha Hlt).
  cbn [bind]. change (value (bump F)) with (value F). rewrite Hg. cbn [bind].
  destruct Hl; reflexivity.
Qed.

Lemma visit_leaf (x : jsval) f st k F rest K :
  leaf_ok regexp_source x ->
  at_owner F rest K st -> (iteration F < count F)%nat ->
  get_own (value F) k = Normal x ->
  SerializeJSONProperty replacer (S f) st k (value F)
  = Normal (Some (json_text (lower x)),
            {| st_stack := bump F :: rest; st_keys := K;
               st_meta := tag_leaf (keys_top K ++ k) x (st_meta st) |}).
Proof.
  intros Hl Ha Hlt Hg. cbn [SerializeJSONProperty]. rewrite Hg. cbn [bind].
  rewrite (replacer_leaf x st k _ F rest K Hl Ha Hlt Hg). cbn [bind].
  rewrite (leaf_lower x Hl).
  destruct Hl as [| |b|z Hz| | | | | | | | | | |]; try reflexivity.
  - destruct b; reflexivity.
  - cbn [lower_leaf]. now rewrite Hz.
Qed.

(** The replacer on a plain object with members, under a key. *)
Lemma replacer_object p ps st k v0 F rest K :
  at_owner F rest K st -> (iteration F < count F)%nat ->
  get_own (value F) k = Normal (VObj (p :: ps)) -> k <> "" ->
  replacer st k v0
  = Normal (VObj (p :: ps),
            {| st_stack := frame KObject (VObj (p :: ps)) (List.length (p :: ps)) 0
                           :: bump F :: rest;
               st_keys := ((keys_top K ++ k) ++ ".") :: K;
               st_meta := st_meta st |}).
Proof.
  intros Ha Hlt Hg Hk. unfold replacer. rewrite (owner_at F rest K st Ha Hlt).
  cbn [bind]. change (value (bump F)) with (value F). rewrite Hg.
  cbn [bind is_object classify List.length Nat.eqb st_keys].
  apply String.eqb_neq in Hk. rewrite Hk. reflexivity.
Qed.

(** The replacer on an array with elements: a frame, no key prefix. *)
Lemma replacer_array x xs st k v0 F rest K :
  at_owner F rest K st -> (iteration F < count F)%nat ->
  get_own (value F) k = Normal (VArr (x :: xs)) ->
  replacer st k v0
  = Normal (VArr (x :: xs),
            {| st_stack := frame (KNon TUndefined) (VArr (x :: xs))
                                 (List.length (x :: xs)) 0
                           :: bump F :: rest;
               st_keys := K;
               st_meta := st_meta st |}).
Proof.
  intros Ha Hlt Hg. unfold replacer. rewrite (owner_at F rest K st Ha Hlt).
  cbn [bind]. change (value (bump F)) with (value F). rewrite Hg.
  reflexivity.
Qed.

(** The replacer on a set with elements: the tag, and a frame over the
    array of its elements. *)
Lemma replacer_set x xs st k v0 F rest K :
  at_owner F rest K st -> (iteration F < count F)%nat ->
  get_own (value F) k = Normal (VSet (x :: xs)) ->
  replacer st k v0
  = Normal (VArr (x :: xs),
            {| st_stack := frame (KNon TSet) (VArr (x :: xs))
                                 (List.length (x :: xs)) 0
                           :: bump F :: rest;
               st_keys := K;
               st_meta := map_set (keys_top K ++ k) TSet (st_meta st) |}).
Proof.
  intros Ha Hlt Hg. unfold replacer. rewrite (owner_at F rest K st Ha Hlt).
  cbn [bind]. change (value (bump F)) with (value F). rewrite Hg.
  reflexivity.
Qed.

(** The replacer on a map with entries: the tag, and a frame over the
    object of its entries. *)
Lemma replacer_map p ps st k v0 F rest K :
  fromEntries (p :: ps) = p :: ps ->
  at_owner F rest K st -> (iteration F < count F)%nat ->
  get_own (value F) k = Normal (VMap (p :: ps)) ->
  replacer st k v0
  = Normal (VObj (p :: ps),
            {| st_stack := frame (KNon TMap) (VObj (p :: ps))
                                 (List.length (p :: ps)) 0
                           :: bump F :: rest;
               st_keys := K;
               st_meta := map_set (keys_top K ++ k) TMap (st_meta st) |}).
Proof.
  intros Hc Ha Hlt Hg. unfold replacer. rewrite (owner_at F rest K st Ha Hlt).
  cbn [bind]. change (value (bump F)) with (value F). rewrite Hg.
  cbn [bind is_object classify]. rewrite Hc. reflexivity.
Qed.

(** The replacer on an error: the tag, and a frame of three visits that
    comes with no key prefix. *)
Lemma replacer_error n m s st k v0 F rest K :
  at_owner F rest K st -> (iteration F < count F)%nat ->
  get_own (value F) k = Normal (VError n m s) ->
  replacer st k v0
  = Normal (lower_leaf (VError n m s),
            {| st_stack := frame KObject (lower_leaf (VError n m s)) 3 0
                           :: bump F :: rest;
               st_keys := K;
               st_meta := map_set (keys_top K ++ k) TError (st_meta st) |}).
Proof.
  intros Ha Hlt Hg. unfold replacer. rewrite (owner_at F rest K st Ha Hlt).
  cbn [bind]. change (value (bump F)) with (value F). rewrite Hg.
  reflexivity.
Qed.

Definition children_size (l : list (string * jsval)) : nat :=
  fold_right (fun kv n => (jsval_size (snd kv) + n)%nat) 0%nat l.

(** What a visit of [x] under the key [k] of the frame [F] does. *)
Definition visits (f : bool) (x : jsval) : Prop :=
  forall fuel st k segs F rest K,
    at_owner F rest K st -> (iteration F < count F)%nat ->
    get_own (value F) k = Normal x ->
    keys_top K = prefix_text segs -> k <> "" ->
    (jsval_size x <= fuel)%nat ->
    exists st',
      SerializeJSONProperty replacer fuel st k (value F)
      = Normal (Some (json_text (lower x)), st')
      /\ st_meta st' = add_tags (tags (segs ++ [k]) x) (st_meta st)
      /\ (pushes x = false -> st_stack st' = bump F :: rest /\ st_keys st' = K)
      /\ (f = true -> at_owner (bump F) rest K st').

(** What the visits of the members [l] of an object do, after the
    members [pre]. *)
Definition visits_members (f : bool) (l : list (string * jsval)) : Prop :=
  forall fuel st pre ty segs rest K,
    at_owner (frame ty (VObj (pre ++ l)) (List.length (pre ++ l))
                    (List.length pre)) rest K st ->
    NoDup (map fst (pre ++ l)) ->
    keys_top K = prefix_text segs ->
    (children_size l <= fuel)%nat ->
    exists st',
      serialize_each
        (fun s k => SerializeJSONProperty replacer fuel s k (VObj (pre ++ l)))
        (map fst l) st
      = Normal (map (fun kv => Some (json_text (lower (snd kv)))) l, st')
      /\ st_meta st'
         = add_tags (flat_map (fun kv => tags (segs ++ [fst kv]) (snd kv)) l)
                    (st_meta st)
      /\ (f = true ->
          st_stack st' = frame ty (VObj (pre ++ l)) (List.length (pre ++ l))
                               (List.length (pre ++ l)) :: rest
          /\ st_keys st' = K).

Lemma object_members_all (t : jsval -> string) (l : list (string * jsval)) :
  object_members (map fst l) (map (fun kv => Some (t (snd kv))) l)
  = map (member_text t) l.
Proof. induction l as [|[k v] l IH]; simpl; [reflexivity | now rewrite IH]. Qed.

Lemma serialize_each_cons (St : Type)
  (ser : St -> string -> completion (option string * St)) k ks st :
  serialize_each ser (k :: ks) st
  = bind (ser st k) (fun x => let '(p, st1) := x in
      bind (serialize_each ser ks st1) (fun y => let '(ps, st2) := y in
        Normal (p :: ps, st2))).
Proof. reflexivity. Qed.

Lemma add_tags_app ts1 ts2 m :
  add_tags (ts1 ++ ts2) m = add_tags ts2 (add_tags ts1 m).
Proof. unfold add_tags. now rewrite fold_left_app. Qed.

Definition elements_size (l : list jsval) : nat :=
  fold_right (fun x n => (jsval_size x + n)%nat) 0%nat l.

(** What the visits of the elements [l] of an array of JSON values do,
    after the elements [pre]. *)
Definition visits_elements (f : bool) (l : list jsval) : Prop :=
  forall fuel st pre ty segs rest K,
    at_owner (frame ty (VArr (pre ++ l)) (List.length (pre ++ l))
                    (List.length pre)) rest K st ->
    array_length_ok (pre ++ l) -> Forall is_json l ->
    keys_top K = prefix_text segs ->
    (elements_size l <= fuel)%nat ->
    exists st',
      serialize_each
        (fun s k => SerializeJSONProperty replacer fuel s k (VArr (pre ++ l)))
        (map (fun i => dec_of_N (N.of_nat i))
             (seq (List.length pre) (List.length l))) st
      = Normal (map (fun v => Some (json_text v)) l, st')
      /\ st_meta st' = st_meta st
      /\ (f = true ->
          st_stack st' = frame ty (VArr (pre ++ l)) (List.length (pre ++ l))
                               (List.length (pre ++ l)) :: rest
          /\ st_keys st' = K).

Lemma array_text_all (l : list jsval) :
  array_text (map (fun v => Some (json_text v)) l) = json_text (VArr l).
Proof.
  unfold array_text. cbn [json_text]. now rewrite map_map.
Qed.

(** The visit of an error that no visit follows. *)
Lemma visit_error n m s fuel st k segs F rest K :
  at_owner F rest K st -> (iteration F < count F)%nat ->
  get_own (value F) k = Normal (VError (VStr n) m (VStr s)) ->
  keys_top K = prefix_text segs ->
  (3 <= fuel)%nat ->
  exists st',
    SerializeJSONProperty replacer fuel st k (value F)
    = Normal (Some (json_text (lower_leaf (VError (VStr n) m (VStr s)))), st')
    /\ st_meta st' = map_set (path_text (segs ++ [k])) TError (st_meta st).
Proof.
  intros Ha Hlt Hg HK Hf.
  destruct fuel as [|fuel]; [lia|].
  cbn [SerializeJSONProperty]. rewrite Hg. cbn [bind].
  rewrite (replacer_error (VStr n) m (VStr s) st k _ F rest K Ha Hlt Hg).
  cbn [bind lower_leaf]. set (o := VObj _). set (m1 := map_set _ _ _).
  cbn [map fst]. rewrite serialize_each_cons. cbv beta.
  destruct fuel as [|fuel]; [lia|].
  pose (F1 := frame KObject o 3 0).
  pose proof (visit_leaf (VStr n) fuel
    {| st_stack := F1 :: bump F :: rest; st_keys := K; st_meta := m1 |}
    "name" F1 (bump F :: rest) K (L_str _ n)) as H1.
  pose proof (visit_leaf (VStr m) fuel
    {| st_stack := bump F1 :: bump F :: rest; st_keys := K; st_meta := m1 |}
    "message" (bump F1) (bump F :: rest) K (L_str _ m)) as H2.
  pose proof (visit_leaf (VStr s) fuel
    {| st_stack := bump (bump F1) :: bump F :: rest; st_keys := K;
       st_meta := m1 |}
    "stack" (bump (bump F1)) (bump F :: rest) K (L_str _ s)) as H3.
  unfold F1, frame, bump in H1, H2, H3. unfold frame, bump.
  cbn [value type count iteration st_meta tag_leaf own_tag lower
       lower_leaf json_text] in H1, H2, H3.
  rewrite H1; [|now apply AO_top|lia|reflexivity]. cbn [bind].
  rewrite serialize_each_cons. cbv beta.
  rewrite H2; [|now apply AO_top|lia|reflexivity]. cbn [bind].
  rewrite serialize_each_cons. cbv beta.
  rewrite H3; [|now apply AO_top|lia|reflexivity].
  cbn [bind serialize_each].
  eexists. split; [reflexivity|].
  cbn [st_meta]. unfold m1. now rewrite path_text_snoc, HK.
Qed.

Lemma visits_tree :
  (forall f x, tree regexp_source f x -> visits f x)
  /\ (forall f l, members regexp_source f l -> visits_members f l)
  /\ (forall f l, elements regexp_source f l -> visits_elements f l).
Proof.
  apply tree_members_ind.
  - (* a leaf *)
    intros f v Hl fuel st k segs F rest K Ha Hlt Hg HK Hk Hf.
    destruct fuel as [|fuel]; [destruct v; simpl in Hf; lia|].
    eexists. split; [apply (visit_leaf v fuel st k F rest K Hl Ha Hlt Hg)|].
    cbn [st_meta st_stack st_keys].
    split; [|split].
    + rewrite (leaf_tags v _ Hl). unfold tag_leaf, add_tags.
      destruct (own_tag v); simpl; [rewrite path_text_snoc, HK|]; reflexivity.
    + auto.
    + intros _. now apply AO_top.
  - (* a plain object *)
    intros f p ps Hc Hm IH fuel st k segs F rest K Ha Hlt Hg HK Hk Hf.
    destruct fuel as [|fuel]; [simpl in Hf; lia|].
    cbn [SerializeJSONProperty]. rewrite Hg. cbn [bind].
    rewrite (replacer_object p ps st k _ F rest K Ha Hlt Hg Hk). cbn [bind].
    set (st1 := {| st_stack := _ |}).
    destruct (IH fuel st1 [] KObject (segs ++ [k])%list (bump F :: rest)
                 (((keys_top K ++ k) ++ ".") :: K))
      as (st' & Hs & Hmeta & Hstk).
    + now apply AO_top.
    + cbn [app]. rewrite <- Hc. apply fromEntries_nodup.
    + cbn [keys_top]. now rewrite prefix_text_snoc, HK, append_assoc.
    + simpl in Hf. unfold children_size. simpl. lia.
    + cbn [app] in Hs. rewrite Hs. cbn [bind]. exists st'.
      split; [|split; [|split]].
      * f_equal. f_equal. unfold object_text.
        rewrite (object_members_all (fun v => json_text (lower v))).
        cbn [lower json_text]. now rewrite map_map.
      * exact Hmeta.
      * discriminate.
      * intros Hft. destruct (Hstk Hft) as [H1 H2]. cbn [app] in H1.
        eapply AO_object; try eassumption; cbn [frame type count iteration]; auto.
  - (* an array *)
    intros f x xs Hlen Hj He IH fuel st k segs F rest K Ha Hlt Hg HK Hk Hf.
    destruct fuel as [|fuel]; [simpl in Hf; lia|].
    cbn [SerializeJSONProperty]. rewrite Hg. cbn [bind].
    rewrite (replacer_array x xs st k _ F rest K Ha Hlt Hg). cbn [bind].
    set (st1 := {| st_stack := _ |}).
    destruct (IH fuel st1 [] (KNon TUndefined) segs (bump F :: rest) K)
      as (st' & Hs & Hmeta & Hstk).
    + now apply AO_top.
    + exact Hlen.
    + now apply json_elements.
    + exact HK.
    + simpl in Hf. unfold elements_size. simpl. lia.
    + cbn [app List.length] in Hs. unfold index_keys. cbn [List.length].
      rewrite Hs. cbn [bind]. exists st'.
      split; [|split; [|split]].
      * now rewrite array_text_all.
      * exact Hmeta.
      * discriminate.
      * intros Hft. destruct (Hstk Hft) as [H1 H2]. cbn [app] in H1.
        eapply AO_other; try eassumption; cbn [frame type count iteration]; auto.
  - (* a set *)
    intros f x xs Hlen Hj Hd He IH fuel st k segs F rest K Ha Hlt Hg HK Hk Hf.
    destruct fuel as [|fuel]; [simpl in Hf; lia|].
    cbn [SerializeJSONProperty]. rewrite Hg. cbn [bind].
    rewrite (replacer_set x xs st k _ F rest K Ha Hlt Hg). cbn [bind].
    set (st1 := {| st_stack := _ |}).
    destruct (IH fuel st1 [] (KNon TSet) segs (bump F :: rest) K)
      as (st' & Hs & Hmeta & Hstk).
    + now apply AO_top.
    + exact Hlen.
    + now apply json_elements.
    + exact HK.
    + simpl in Hf. unfold elements_size. simpl. lia.
    + cbn [app List.length] in Hs. unfold index_keys. cbn [List.length].
      rewrite Hs. cbn [bind]. exists st'.
      split; [|split; [|split]].
      * now rewrite array_text_all.
      * rewrite Hmeta. unfold st1. cbn [st_meta tags own_tag add_tags fold_left fst snd].
        now rewrite path_text_snoc, HK.
      * discriminate.
      * intros Hft. destruct (Hstk Hft) as [H1 H2]. cbn [app] in H1.
        eapply AO_other; try eassumption; cbn [frame type count iteration]; auto.
  - (* a map *)
    intros f p ps Hj Hm IH fuel st k segs F rest K Ha Hlt Hg HK Hk Hf.
    destruct (json_members _ Hj) as [Hc Hjs].
    destruct fuel as [|fuel]; [simpl in Hf; lia|].
    cbn [SerializeJSONProperty]. rewrite Hg. cbn [bind].
    rewrite (replacer_map p ps st k _ F rest K Hc Ha Hlt Hg). cbn [bind].
    set (st1 := {| st_stack := _ |}).
    destruct (IH fuel st1 [] (KNon TMap) segs (bump F :: rest) K)
      as (st' & Hs & Hmeta & Hstk).
    + now apply AO_top.
    + cbn [app]. rewrite <- Hc. apply fromEntries_nodup.
    + exact HK.
    + simpl in Hf. unfold children_size. simpl. lia.
    + cbn [app] in Hs. rewrite Hs. cbn [bind]. exists st'.
      split; [|split; [|split]].
      * f_equal. f_equal. f_equal. unfold object_text.
        rewrite (object_members_all (fun v => json_text (lower v))).
        cbn [lower lower_leaf]. rewrite Hc.
        transitivity (json_text (lower (VObj (p :: ps))));
          [|now rewrite (json_lower _ Hj)].
        cbn [lower json_text]. now rewrite map_map.
      * rewrite Hmeta.
        change (flat_map _ (p :: ps)) with (tags segs (VObj (p :: ps))).
        rewrite (json_tags _ Hj). unfold st1.
        cbn [st_meta tags own_tag add_tags fold_left fst snd].
        now rewrite path_text_snoc, HK.
      * discriminate.
      * intros Hft. destruct (Hstk Hft) as [H1 H2]. cbn [app] in H1.
        eapply AO_other; try eassumption; cbn [frame type count iteration]; auto.
  - (* an error *)
    intros n m s fuel st k segs F rest K Ha Hlt Hg HK Hk Hf.
    destruct (visit_error n m s fuel st k segs F rest K Ha Hlt Hg HK)
      as (st' & Hs & Hmeta); [simpl in Hf; lia|].
    exists st'. split; [exact Hs|]. split; [exact Hmeta|].
    split; discriminate.
  - (* the last member *)
    intros f k v Hk Ht IH Hp fuel st pre ty segs rest K Ha Hn HK Hf.
    assert (Hnotin : ~ In k (map fst pre)).
    { rewrite map_app in Hn. apply NoDup_remove_2 in Hn.
      rewrite List.app_nil_r in Hn. exact Hn. }
    destruct (IH fuel st k segs _ rest K Ha) as (st' & Hs & Hmeta & Hleaf & _).
    + cbn [frame iteration count]. rewrite length_app. simpl. lia.
    + cbn [frame value get_own]. now rewrite lookup_app.
    + exact HK.
    + apply Hk.
    + unfold children_size in Hf. simpl in Hf. lia.
    + cbn [frame value] in Hs. cbn [map fst serialize_each]. rewrite Hs.
      cbn [bind]. exists st'. split; [reflexivity|]. split.
      * simpl. rewrite List.app_nil_r. exact Hmeta.
      * intros Hft. destruct (Hleaf (Hp Hft)) as [H1 H2]. split; [|exact H2].
        rewrite H1. unfold bump, frame. cbn. rewrite length_app. simpl.
        repeat f_equal. lia.
  - (* a member followed by others *)
    intros f k v q r Hk Ht IHv Hm IHm fuel st pre ty segs rest K Ha Hn HK Hf.
    assert (Hnotin : ~ In k (map fst pre)).
    { rewrite map_app in Hn. simpl in Hn. now apply NoDup_remove_2 in Hn;
        rewrite in_app_iff in Hn; tauto. }
    destruct (IHv fuel st k segs _ rest K Ha) as (st1 & Hs & Hmeta & _ & Hnext).
    + cbn [frame iteration count]. rewrite length_app. simpl. lia.
    + cbn [frame value get_own]. now rewrite lookup_app.
    + exact HK.
    + apply Hk.
    + unfold children_size in Hf. simpl in Hf. lia.
    + specialize (Hnext eq_refl).
      assert (E : (pre ++ (k, v) :: q :: r = (pre ++ [(k, v)]) ++ q :: r)%list)
        by now rewrite <- List.app_assoc.
      destruct (IHm fuel st1 (pre ++ [(k, v)])%list ty segs rest K)
        as (st' & Hs' & Hmeta' & Hstk).
      * rewrite <- E. replace (List.length (pre ++ [(k, v)])) with (S (List.length pre))
          by (rewrite length_app; simpl; lia).
        exact Hnext.
      * now rewrite <- E.
      * exact HK.
      * unfold children_size in *. simpl in Hf. simpl. lia.
      * rewrite <- E in Hs', Hstk.
        cbn [frame value] in Hs.
        change (map fst ((k, v) :: q :: r)) with (k :: map fst (q :: r)).
        rewrite serialize_each_cons, Hs. cbn [bind].
        rewrite Hs'. cbn [bind]. exists st'. split; [reflexivity|]. split.
        -- cbn [flat_map fst snd]. rewrite add_tags_app, <- Hmeta. exact Hmeta'.
        -- exact Hstk.
  - (* the last element *)
    intros f v Ht IH Hp fuel st pre ty segs rest K Ha Hlen Hj HK Hf.
    inversion Hj as [|? ? Hjv _]; subst.
    destruct (IH fuel st (dec_of_N (N.of_nat (List.length pre))) segs _ rest K Ha)
      as (st' & Hs & Hmeta & Hleaf & _).
    + cbn [frame iteration count]. rewrite length_app. simpl. lia.
    + cbn [frame value]. rewrite get_own_index; [|exact Hlen|].
      * now rewrite nth_middle.
      * rewrite length_app. simpl. lia.
    + exact HK.
    + apply dec_of_N_nonempty.
    + unfold elements_size in Hf. simpl in Hf. lia.
    + cbn [frame value] in Hs. cbn [List.length seq map serialize_each].
      rewrite Hs. cbn [bind]. exists st'.
      rewrite (json_lower v Hjv). split; [reflexivity|]. split.
      * rewrite Hmeta. now rewrite (json_tags v Hjv).
      * intros Hft. destruct (Hleaf (Hp Hft)) as [H1 H2]. split; [|exact H2].
        rewrite H1. unfold bump, frame. cbn. rewrite length_app. simpl.
        repeat f_equal. lia.
  - (* an element followed by others *)
    intros f v w r Ht IHv He IHe fuel st pre ty segs rest K Ha Hlen Hj HK Hf.
    inversion Hj as [|? ? Hjv Hjr]; subst.
    destruct (IHv fuel st (dec_of_N (N.of_nat (List.length pre))) segs _ rest K Ha)
      as (st1 & Hs & Hmeta & _ & Hnext).
    + cbn [frame iteration count]. rewrite length_app. simpl. lia.
    + cbn [frame value]. rewrite get_own_index; [|exact Hlen|].
      * now rewrite nth_middle.
      * rewrite length_app. simpl. lia.
    + exact HK.
    + apply dec_of_N_nonempty.
    + unfold elements_size in Hf. simpl in Hf. lia.
    + specialize (Hnext eq_refl).
      assert (E : (pre ++ v :: w :: r = (pre ++ [v]) ++ w :: r)%list)
        by now rewrite <- List.app_assoc.
      destruct (IHe fuel st1 (pre ++ [v])%list ty segs rest K)
        as (st' & Hs' & Hmeta' & Hstk).
      * rewrite <- E. replace (List.length (pre ++ [v])) with (S (List.length pre))
          by (rewrite length_app; simpl; lia).
        exact Hnext.
      * now rewrite <- E.
      * exact Hjr.
      * exact HK.
      * unfold elements_size in *. simpl in Hf. simpl. lia.
      * rewrite <- E in Hs', Hstk.
        replace (List.length (pre ++ [v])) with (S (List.length pre)) in Hs'
          by (rewrite length_app; simpl; lia).
        cbn [frame value] in Hs.
        change (List.length (v :: w :: r)) with (S (List.length (w :: r))).
        cbn [seq map]. rewrite serialize_each_cons, Hs. cbn [bind].
        rewrite Hs'. cbn [bind]. exists st'.
        rewrite (json_lower v Hjv). split; [reflexivity|]. split.
        -- rewrite Hmeta', Hmeta. now rewrite (json_tags v Hjv).
        -- exact Hstk.
Qed.

End Traversal.

(** ** Splitting a path *)

Lemma split_dot_nonempty (s : string) : split_dot s <> [].
Proof.
  induction s as [|c s IH]; simpl; [discriminate|].
  destruct (Ascii.eqb c "."); [discriminate|].
  destruct (split_dot s); [discriminate|discriminate].
Qed.

Lemma split_dot_free (s : string) : dot_free s = true -> split_dot s = [s].
Proof.
  induction s as [|c s IH]; simpl; [reflexivity|]. intros H.
  apply andb_prop in H as [Hc Hs]. apply negb_true_iff in Hc.
  now rewrite Hc, (IH Hs).
Qed.

Lemma split_dot_app (s rest : string) :
  dot_free s = true -> split_dot (s ++ String "." rest) = s :: split_dot rest.
Proof.
  induction s as [|c s IH]; simpl; [reflexivity|]. intros H.
  apply andb_prop in H as [Hc Hs]. apply negb_true_iff in Hc.
  now rewrite Hc, (IH Hs).
Qed.

Lemma split_join (segs : list string) :
  segs <> [] -> Forall (fun s => dot_free s = true) segs ->
  split_dot (path_text segs) = segs.
Proof.
  unfold path_text. induction segs as [|s segs IH]; [congruence|].
  intros _ H. inversion H as [|? ? Hs Hr]; subst. destruct segs as [|s' segs].
  - simpl. now apply split_dot_free.
  - rewrite concat_cons2. cbn [append]. rewrite (split_dot_app _ _ Hs).
    f_equal. apply IH; [discriminate|assumption].
Qed.

Lemma join_split (s : string) : path_text (split_dot s) = s.
Proof.
  unfold path_text. induction s as [|c s IH]; [reflexivity|]. simpl.
  destruct (Ascii.eqb_spec c ".") as [->|Hc].
  - pose proof (split_dot_nonempty s) as Hn.
    destruct (split_dot s) as [|h t]; [congruence|].
    rewrite concat_cons2. cbn [append]. now rewrite IH.
  - destruct (split_dot s) as [|h t] eqn:E; [now apply split_dot_nonempty in E|].
    destruct t as [|h' t].
    + simpl in *. now rewrite IH.
    + rewrite concat_cons2 in *. cbn [append] in *. now rewrite IH.
Qed.

Lemma split_dot_inj (s t : string) : split_dot s = split_dot t -> s = t.
Proof. intros H. now rewrite <- (join_split s), <- (join_split t), H. Qed.

(** ** Partly restored trees *)

(** The shape of the path of a tag. *)
Lemma tags_shape (v : jsval) segs path tg :
  In (path, tg) (tags segs v) ->
  match v with
  | VObj ps => exists k c, In (k, c) ps /\ In (path, tg) (tags (segs ++ [k]) c)
  | _ => path = segs /\ own_tag v = Some tg
  end.
Proof.
  destruct v; simpl; try tauto;
    try (intros [H|[]]; injection H as <- <-; now split).
  - destruct n; simpl; try tauto;
      intros [H|[]]; injection H as <- <-; now split.
  - rewrite in_flat_map. intros ([k c] & Hi & Ht). now exists k, c.
Qed.

Lemma tags_prefix (v : jsval) :
  forall segs path tg,
    In (path, tg) (tags segs v) -> exists more, path = (segs ++ more)%list.
Proof.
  induction v using jsval_ind; intros segs path tg Hi;
    try (apply tags_shape in Hi; destruct Hi as [-> _]; exists [];
         now rewrite List.app_nil_r).
  apply tags_shape in Hi. destruct Hi as (k & c & Hin & Ht).
  rewrite Forall_forall in H. destruct (H (k, c) Hin _ _ _ Ht) as [more ->].
  exists (k :: more). now rewrite <- List.app_assoc.
Qed.

(** The tree with the values at the paths [done] restored and the others
    lowered. *)
Definition is_done (done : list (list string)) (segs : list string) : bool :=
  if in_dec (list_eq_dec string_dec) segs done then true else false.

Fixpoint partial (done : list (list string)) (segs : list string) (v : jsval)
  : jsval :=
  match v with
  | VObj ps =>
      VObj (map (fun kv => (fst kv, partial done (segs ++ [fst kv]) (snd kv))) ps)
  | _ => if is_done done segs then v else lower_leaf v
  end.

Lemma partial_nil (v : jsval) : forall segs, partial [] segs v = lower v.
Proof.
  induction v using jsval_ind; intros segs; try reflexivity.
  simpl. f_equal. apply map_ext_in. intros [k c] Hi.
  rewrite Forall_forall in H. simpl. f_equal. now apply (H (k, c)).
Qed.

Lemma partial_other (v : jsval) :
  forall done segs path,
    (forall more, (segs ++ more)%list <> path) ->
    partial (path :: done) segs v = partial done segs v.
Proof.
  induction v using jsval_ind; intros done segs path Hne;
    try (simpl; unfold is_done;
         destruct (in_dec _ segs (path :: done)) as [[E|Hi]|Hn],
                  (in_dec _ segs done) as [Hi'|Hn'];
         try reflexivity;
         try (exfalso; apply (Hne []); now rewrite List.app_nil_r);
         try tauto; exfalso; apply Hn; now right).
  simpl. f_equal. apply map_ext_in. intros [k c] Hi.
  rewrite Forall_forall in H. simpl. f_equal. apply (H (k, c) Hi).
  intros more. rewrite <- List.app_assoc. apply Hne.
Qed.

Lemma BigInt_new_dec (z : Z) : BigInt_new (VStr (dec_of_Z z)) = Normal (VBigInt z).
Proof.
  unfold BigInt_new, dec_of_Z. rewrite NilZero.isi.
  - now rewrite DecimalZ.of_to.
  - destruct z; simpl; try discriminate.
    intros H. injection H as H. now apply Unsigned.to_uint_nonnil in H.
  - destruct z; simpl; try discriminate.
    intros H. injection H as H. now apply Unsigned.to_uint_nonnil in H.
Qed.

Definition pmap (done : list (list string)) (segs : list string)
  (ps : list (string * jsval)) : list (string * jsval) :=
  map (fun kv => (fst kv, partial done (segs ++ [fst kv]) (snd kv))) ps.

Lemma lookup_pmap done segs ps k c :
  NoDup (map fst ps) -> In (k, c) ps ->
  lookup k (pmap done segs ps) = Some (partial done (segs ++ [k]) c).
Proof.
  intros Hn Hi. apply lookup_in.
  - unfold pmap. now rewrite map_map, (map_ext _ fst) by reflexivity.
  - unfold pmap. apply in_map_iff. now exists (k, c).
Qed.

Lemma replace_nodup (A : Type) (g : string -> A -> A) (l : list (string * A)) k c x :
  NoDup (map fst l) -> In (k, c) l ->
  replace k x (map (fun kv => (fst kv, g (fst kv) (snd kv))) l)
  = Some (map (fun kv => (fst kv, if (fst kv =? k)%string then x
                                  else g (fst kv) (snd kv))) l).
Proof.
  induction l as [|[k' y] l IH]; simpl; intros Hn Hi; [tauto|].
  inversion Hn as [|? ? Hk Hl]; subst.
  destruct (String.eqb_spec k k') as [->|Hne].
  - rewrite String.eqb_refl. f_equal. f_equal.
    apply map_ext_in. intros [k2 y2] Hi2. simpl.
    destruct (String.eqb_spec k2 k') as [->|]; [|reflexivity].
    exfalso. apply Hk. now apply (in_map fst) in Hi2.
  - destruct Hi as [E|Hi]; [congruence|]. rewrite (IH Hl Hi). simpl.
    destruct (String.eqb_spec k' k) as [->|]; [congruence|reflexivity].
Qed.

(** Storing the restored member [k] of a partly restored object. *)
Lemma store_member done segs ps k c x :
  NoDup (map fst ps) -> In (k, c) ps ->
  forall path, (exists more, path = ((segs ++ [k]) ++ more)%list) ->
  x = partial (path :: done) (segs ++ [k]) c ->
  set_own (VObj (pmap done segs ps)) k x
  = Normal (VObj (pmap (path :: done) segs ps)).
Proof.
  intros Hn Hi path [more Hp] Hx. cbn [set_own].
  rewrite (lookup_pmap done segs ps k c Hn Hi). unfold obj_set, pmap.
  rewrite (replace_nodup jsval (fun k' c' => partial done (segs ++ [k']) c')
             ps k c x Hn Hi).
  f_equal. f_equal. apply map_ext_in. intros [k' c'] Hi'. simpl. f_equal.
  destruct (String.eqb_spec k' k) as [->|Hne].
  - assert (c' = c) as ->.
    { pose proof (lookup_in k ps Hn c Hi) as H1.
      pose proof (lookup_in k ps Hn c' Hi') as H2. congruence. }
    exact Hx.
  - symmetry. apply partial_other. intros more' E. subst path.
    rewrite <- !List.app_assoc in E. apply app_inv_head in E.
    injection E as E _. contradiction.
Qed.

Lemma not_done done segs : ~ In segs done -> is_done done segs = false.
Proof. unfold is_done. now destruct (in_dec _ segs done). Qed.

Lemma is_done_head done segs : is_done (segs :: done) segs = true.
Proof.
  unfold is_done. destruct (in_dec _ segs (segs :: done)) as [|Hn];
    [reflexivity|]. exfalso. apply Hn. now left.
Qed.

(** ** Restoring a tree *)

(** The containers of JSON values, and the error. *)
Inductive held_ok : jsval -> Prop :=
| H_arr x xs : is_json (VArr (x :: xs)) -> held_ok (VArr (x :: xs))
| H_set x xs :
    is_json (VArr (x :: xs)) -> set_add_all [] (x :: xs) = x :: xs ->
    held_ok (VSet (x :: xs))
| H_map p ps : is_json (VObj (p :: ps)) -> held_ok (VMap (p :: ps))
| H_error n m s : held_ok (VError (VStr n) m (VStr s)).

Lemma held_tags (v : jsval) segs :
  held_ok v ->
  tags segs v = match own_tag v with Some t => [(segs, t)] | None => [] end.
Proof. destruct 1; reflexivity. Qed.

Lemma untagged_held (v : jsval) :
  held_ok v -> own_tag v = None -> lower_leaf v = v.
Proof. intros Hh Ht. destruct Hh; simpl in *; congruence. Qed.

Lemma held_json (v : jsval) : held_ok v -> is_json (lower_leaf v).
Proof.
  destruct 1 as [x xs Hj|x xs Hj _|p ps Hj|n m s]; cbn [lower_leaf].
  - exact Hj.
  - exact Hj.
  - destruct (json_members _ Hj) as [Hc _]. now rewrite Hc.
  - apply J_obj; [reflexivity|]. repeat constructor.
Qed.

Section Restoring.
Variable regexp_source : string -> string -> option string.

Unset Elimination Schemes.

(** The trees of [tree], whatever follows them. *)
Inductive rtree : jsval -> Prop :=
| R_leaf v : leaf_ok regexp_source v -> rtree v
| R_held v : held_ok v -> rtree v
| R_obj ps :
    fromEntries ps = ps ->
    Forall (fun kv => key_ok (fst kv) /\ rtree (snd kv)) ps ->
    rtree (VObj ps).

Set Elimination Schemes.

Lemma tree_rtree :
  (forall f v, tree regexp_source f v -> rtree v)
  /\ (forall f l, members regexp_source f l ->
                  Forall (fun kv => key_ok (fst kv) /\ rtree (snd kv)) l).
Proof.
  assert (H :
    (forall f v, tree regexp_source f v -> rtree v)
    /\ (forall f l, members regexp_source f l ->
                    Forall (fun kv => key_ok (fst kv) /\ rtree (snd kv)) l)
    /\ (forall (f : bool) (l : list jsval),
          elements regexp_source f l -> True)).
  { apply tree_members_ind.
    - intros f v Hl. now apply R_leaf.
    - intros f p ps Hc _ IH. now apply R_obj.
    - intros f x xs _ Hj _ _. apply R_held. now apply H_arr.
    - intros f x xs _ Hj Hd _ _. apply R_held. now apply H_set.
    - intros f p ps Hj _ _. apply R_held. now apply H_map.
    - intros n m s. apply R_held. apply H_error.
    - intros f k v Hk _ IH _. constructor; [|constructor]. now split.
    - intros f k v q r Hk _ IHv _ IHm. constructor; [|exact IHm]. now split.
    - trivial.
    - trivial. }
  split; apply H.
Qed.

Lemma untagged_leaf (v : jsval) :
  leaf_ok regexp_source v -> own_tag v = None -> lower_leaf v = v.
Proof. intros Hl Ht. destruct Hl; simpl in *; congruence. Qed.

(** The conversion of a tag gives back the leaf that was lowered. *)
Lemma convert_leaf (v : jsval) (tg : NonJsonTypes) :
  leaf_ok regexp_source v -> own_tag v = Some tg ->
  convert regexp_source (VStr (type_name tg)) (lower_leaf v) = Normal (Some v).
Proof.
  intros Hl Ht. destruct Hl; simpl in Ht; try discriminate;
    injection Ht as <-; try reflexivity.
  - cbn [type_name convert lower_leaf]. unfold convert_case.
    cbn [String.eqb Ascii.eqb Bool.eqb]. now rewrite BigInt_new_dec.
  - cbn [type_name convert lower_leaf]. unfold convert_case.
    cbn [String.eqb Ascii.eqb Bool.eqb Date_new]. unfold reads_back in H.
    now rewrite H.
  - cbn [type_name convert lower_leaf]. unfold convert_case.
    cbn [String.eqb Ascii.eqb Bool.eqb to_string bind]. now rewrite H, H0.
Qed.

(** The conversion of a tag gives back the container whose content was
    printed. *)
Lemma convert_held (v : jsval) (tg : NonJsonTypes) :
  held_ok v -> own_tag v = Some tg ->
  convert regexp_source (VStr (type_name tg)) (lower_leaf v) = Normal (Some v).
Proof.
  intros Hh Ht. destruct Hh as [x xs Hj|x xs Hj Hd|p ps Hj|n m s];
    simpl in Ht; try discriminate; injection Ht as <-.
  - cbn [type_name convert lower_leaf]. unfold convert_case.
    cbn [String.eqb Ascii.eqb Bool.eqb Set_new bind]. now rewrite Hd.
  - destruct (json_members _ Hj) as [Hc _].
    cbn [type_name convert lower_leaf]. unfold convert_case.
    cbn [String.eqb Ascii.eqb Bool.eqb]. rewrite Hc. reflexivity.
  - reflexivity.
Qed.

(** What restoring needs of a value that is no plain object. *)
Lemma rtree_unit (v : jsval) :
  rtree v -> (forall ps, v <> VObj ps) ->
  (forall segs,
     tags segs v = match own_tag v with Some t => [(segs, t)] | None => [] end)
  /\ (own_tag v = None -> lower_leaf v = v)
  /\ (forall tg, own_tag v = Some tg ->
       convert regexp_source (VStr (type_name tg)) (lower_leaf v)
       = Normal (Some v)).
Proof.
  intros Hr Hn. inversion Hr as [? Hl|? Hh|ps Hc Hf]; subst.
  - split; [|split].
    + intros segs. now apply (leaf_tags regexp_source).
    + now apply untagged_leaf.
    + intros tg. now apply convert_leaf.
  - split; [|split].
    + intros segs. now apply held_tags.
    + now apply untagged_held.
    + intros tg. now apply convert_held.
  - now contradiction (Hn ps).
Qed.

(** The members of a plain object of the class. *)
Lemma rtree_members (ps : list (string * jsval)) :
  rtree (VObj ps) ->
  fromEntries ps = ps
  /\ Forall (fun kv => key_ok (fst kv) /\ rtree (snd kv)) ps.
Proof.
  intros Hr. inversion Hr as [? Hl|? Hh|? Hc Hf]; subst.
  - inversion Hl; subst. split; [reflexivity|constructor].
  - inversion Hh.
  - now split.
Qed.

Lemma partial_all (v : jsval) :
  rtree v ->
  forall done segs,
    (forall path tg, In (path, tg) (tags segs v) -> In path done) ->
    partial done segs v = v.
Proof.
  induction v using jsval_ind; intros Hr done segs Hd;
    try (pose proof (rtree_unit _ Hr ltac:(discriminate)) as Hu;
         simpl; unfold is_done;
         destruct (in_dec _ segs done) as [Hi|Hn]; [reflexivity|];
         apply (proj1 (proj2 Hu));
         destruct (own_tag _) as [tg|] eqn:E; [|reflexivity];
         exfalso; apply Hn; apply (Hd segs tg);
         rewrite (proj1 Hu segs); now left).
  simpl. f_equal. rewrite <- (map_id ps) at 2. apply map_ext_in.
  intros [k c] Hi. simpl. f_equal.
  rewrite Forall_forall in H. apply (H (k, c) Hi).
  - destruct (rtree_members _ Hr) as [_ Hf].
    rewrite Forall_forall in Hf. now apply (Hf (k, c)).
  - intros path tg Ht. apply (Hd path tg). simpl. rewrite in_flat_map.
    now exists (k, c).
Qed.

(** One tag applied to a partly restored tree restores the value at its
    path. *)
Definition restores (v : jsval) : Prop :=
  forall done segs path tg k more,
    In (path, tg) (tags segs v) -> path = (segs ++ k :: more)%list ->
    ~ In path done ->
    applyConversion regexp_source (partial done segs v) (k :: more)
                    (VStr (type_name tg))
    = Normal (Some (partial (path :: done) segs v)).

Lemma applyConversion_cons2 result k k2 more type :
  applyConversion regexp_source result (k :: k2 :: more) type
  = bind (get_own result k) (fun child =>
      bind (applyConversion regexp_source child (k2 :: more) type) (fun r =>
        match r with
        | Some child' => bind (set_own result k child') (fun r' => Normal (Some r'))
        | None => Normal None
        end)).
Proof. reflexivity. Qed.

Lemma restores_rtree (v : jsval) : rtree v -> restores v.
Proof.
  induction v using jsval_ind; intros Hr done segs path tg k more Hi Hp Hd;
    try (apply tags_shape in Hi; destruct Hi as [E _]; exfalso;
         rewrite E in Hp; apply (f_equal (@List.length string)) in Hp;
         rewrite length_app in Hp; simpl in Hp; lia).
  destruct (rtree_members _ Hr) as [Hc Hf]. subst path.
  assert (Hn : NoDup (map fst ps)) by (rewrite <- Hc; apply fromEntries_nodup).
  apply tags_shape in Hi. destruct Hi as (k' & c & Hin & Ht).
  destruct (tags_prefix c _ _ _ Ht) as [more' Hp'].
  assert (E : k' = k /\ more' = more).
  { rewrite <- List.app_assoc in Hp'. apply app_inv_head in Hp'.
    simpl in Hp'. now injection Hp' as -> ->. }
  destruct E as [-> ->].
  rewrite Forall_forall in H, Hf. destruct (Hf (k, c) Hin) as [Hk Hrc].
  specialize (H (k, c) Hin Hrc). simpl in H, Hk, Hrc.
  assert (Hpath : (segs ++ k :: more = (segs ++ [k]) ++ more)%list)
    by now rewrite <- List.app_assoc.
  change (partial done segs (VObj ps)) with (VObj (pmap done segs ps)).
  change (partial ((segs ++ k :: more)%list :: done) segs (VObj ps))
    with (VObj (pmap ((segs ++ k :: more)%list :: done) segs ps)).
  destruct more as [|k2 more].
  - (* the member is the tagged value *)
    rewrite List.app_nil_r in Hpath.
    assert (Hleaf : own_tag c = Some tg /\ forall qs, c <> VObj qs).
    { pose proof (tags_shape c _ _ _ Ht) as Hs. destruct c; try (split; [apply Hs|discriminate]).
      destruct Hs as (k2 & c2 & _ & Ht2). apply tags_prefix in Ht2 as [m Hm].
      apply (f_equal (@List.length string)) in Hm.
      rewrite !length_app in Hm. simpl in Hm. lia. }
    destruct Hleaf as [Hown Hnobj].
    cbn [applyConversion]. unfold convert_slot. cbn [get_own].
    rewrite (lookup_pmap done segs ps k c Hn Hin). cbn [bind].
    assert (Hpc : partial done (segs ++ [k]) c = lower_leaf c).
    { destruct c; simpl; try rewrite (not_done _ _ Hd);
        try reflexivity. now contradiction (Hnobj props). }
    rewrite Hpc, (proj2 (proj2 (rtree_unit _ Hrc Hnobj)) tg Hown). cbn [bind].
    rewrite (store_member done segs ps k c c Hn Hin (segs ++ [k])%list).
    + reflexivity.
    + exists []. now rewrite List.app_nil_r.
    + destruct c; simpl; try rewrite is_done_head; try reflexivity.
      now contradiction (Hnobj props).
  - (* the tagged value is inside the member *)
    rewrite applyConversion_cons2. cbn [get_own].
    rewrite (lookup_pmap done segs ps k c Hn Hin). cbn [bind].
    rewrite Hpath in Hd, Ht.
    rewrite (H done (segs ++ [k])%list ((segs ++ [k]) ++ k2 :: more)%list tg
               k2 more Ht eq_refl Hd).
    cbn [bind]. rewrite Hpath.
    rewrite (store_member done segs ps k c _ Hn Hin
               ((segs ++ [k]) ++ k2 :: more)%list).
    + reflexivity.
    + now exists (k2 :: more).
    + reflexivity.
Qed.



End Restoring.

(** ** Tables of tags *)

Section Tables.
Context {A : Type}.
Implicit Types (l : list (string * A)) (k : string) (x : A).

Lemma replace_lookup k x l l' k' :
  replace k x l = Some l' ->
  lookup k' l' = if (k' =? k)%string then Some x else lookup k' l.
Proof.
  revert l'. induction l as [|[k0 y] l IH]; simpl; intros l' H; [discriminate|].
  destruct (String.eqb_spec k k0) as [->|Hne].
  - injection H as <-. simpl. now destruct (k' =? k0)%string.
  - destruct (replace k x l) as [l0|]; [|discriminate]. injection H as <-.
    simpl. destruct (String.eqb_spec k' k0) as [->|].
    + destruct (String.eqb_spec k0 k); congruence.
    + now apply IH.
Qed.

Lemma insert_index_lookup n k x l k' :
  ~ In k (map fst l) ->
  lookup k' (insert_index n k x l)
  = if (k' =? k)%string then Some x else lookup k' l.
Proof.
  induction l as [|[k0 y] l IH]; simpl; intros Hn; [reflexivity|].
  destruct (array_index k0) as [m|]; [destruct (n <? m)%N|]; simpl;
    try reflexivity.
  destruct (String.eqb_spec k' k0) as [->|].
  - destruct (String.eqb_spec k0 k) as [->|]; [tauto|reflexivity].
  - apply IH. tauto.
Qed.

Lemma lookup_snoc k x l k' :
  ~ In k (map fst l) ->
  lookup k' (l ++ [(k, x)]) = if (k' =? k)%string then Some x else lookup k' l.
Proof.
  induction l as [|[k0 y] l IH]; simpl; intros Hn; [reflexivity|].
  destruct (String.eqb_spec k' k0) as [->|].
  - destruct (String.eqb_spec k0 k) as [->|]; [tauto|reflexivity].
  - apply IH. tauto.
Qed.

Lemma obj_set_lookup k x l k' :
  lookup k' (obj_set k x l) = if (k' =? k)%string then Some x else lookup k' l.
Proof.
  unfold obj_set. destruct (replace k x l) as [l'|] eqn:E.
  - now apply replace_lookup.
  - apply replace_none in E. destruct (array_index k).
    + now apply insert_index_lookup.
    + now apply lookup_snoc.
Qed.

Lemma map_set_lookup k x l k' :
  lookup k' (map_set k x l) = if (k' =? k)%string then Some x else lookup k' l.
Proof.
  unfold map_set. destruct (replace k x l) as [l'|] eqn:E.
  - now apply replace_lookup.
  - apply replace_none in E. now apply lookup_snoc.
Qed.

Lemma obj_set_keys k x l k' :
  In k' (map fst (obj_set k x l)) <-> k' = k \/ In k' (map fst l).
Proof.
  unfold obj_set. destruct (replace k x l) as [l'|] eqn:E.
  - rewrite (replace_keys _ _ _ _ E). split; [tauto|]. intros [->|H]; [|exact H].
    destruct (in_dec string_dec k (map fst l)) as [Hi|Hn]; [exact Hi|].
    apply (proj2 (replace_none k x l)) in Hn. congruence.
  - destruct (array_index k).
    + apply insert_index_keys.
    + rewrite map_app, in_app_iff. simpl. intuition congruence.
Qed.

Lemma map_set_keys k x l k' :
  In k' (map fst (map_set k x l)) <-> k' = k \/ In k' (map fst l).
Proof.
  unfold map_set. destruct (replace k x l) as [l'|] eqn:E.
  - rewrite (replace_keys _ _ _ _ E). split; [tauto|]. intros [->|H]; [|exact H].
    destruct (in_dec string_dec k (map fst l)) as [Hi|Hn]; [exact Hi|].
    apply (proj2 (replace_none k x l)) in Hn. congruence.
  - rewrite map_app, in_app_iff. simpl. intuition congruence.
Qed.

Lemma map_set_nodup k x l :
  NoDup (map fst l) -> NoDup (map fst (map_set k x l)).
Proof.
  intros Hn. unfold map_set. destruct (replace k x l) as [l'|] eqn:E.
  - now rewrite (replace_keys _ _ _ _ E).
  - apply replace_none in E. rewrite map_app. simpl. apply NoDup_app; auto.
    + constructor; [tauto|constructor].
    + intros a Ha [<-|[]]. tauto.
Qed.

Lemma fold_obj_set_lookup (es : list (string * A)) k :
  forall acc,
    NoDup (map fst es) ->
    lookup k (fold_left (fun o kv => obj_set (fst kv) (snd kv) o) es acc)
    = match lookup k es with
      | Some x => Some x
      | None => lookup k acc
      end.
Proof.
  induction es as [|[k0 x] es IH]; simpl; intros acc Hn; [reflexivity|].
  inversion Hn as [|? ? Hk Hes]; subst. rewrite (IH _ Hes), obj_set_lookup.
  destruct (String.eqb_spec k k0) as [->|]; [|reflexivity].
  now rewrite (lookup_none k0 es Hk).
Qed.

Lemma fold_obj_set_keys (es : list (string * A)) k :
  forall acc,
    In k (map fst (fold_left (fun o kv => obj_set (fst kv) (snd kv) o) es acc))
    <-> In k (map fst es) \/ In k (map fst acc).
Proof.
  induction es as [|[k0 x] es IH]; simpl; intros acc; [tauto|].
  rewrite IH, obj_set_keys. simpl. intuition congruence.
Qed.

Lemma fromEntries_lookup (es : list (string * A)) k :
  NoDup (map fst es) -> lookup k (fromEntries es) = lookup k es.
Proof.
  intros Hn. unfold fromEntries. rewrite (fold_obj_set_lookup es k [] Hn).
  now destruct (lookup k es).
Qed.

Lemma fromEntries_keys (es : list (string * A)) k :
  In k (map fst (fromEntries es)) <-> In k (map fst es).
Proof. unfold fromEntries. rewrite fold_obj_set_keys. simpl. tauto. Qed.

End Tables.

Section MapTables.
Context {A B : Type} (g : A -> B).

Definition on_snd (kv : string * A) : string * B := (fst kv, g (snd kv)).

Lemma replace_map k x (l : list (string * A)) :
  replace k (g x) (map on_snd l) = option_map (map on_snd) (replace k x l).
Proof.
  induction l as [|[k' y] l IH]; simpl; [reflexivity|].
  destruct (k =? k')%string; [reflexivity|]. rewrite IH.
  now destruct (replace k x l).
Qed.

Lemma insert_index_map n k x (l : list (string * A)) :
  insert_index n k (g x) (map on_snd l) = map on_snd (insert_index n k x l).
Proof.
  induction l as [|[k' y] l IH]; simpl; [reflexivity|].
  destruct (array_index k') as [m|]; [destruct (n <? m)%N|]; simpl;
    try reflexivity. now rewrite IH.
Qed.

Lemma obj_set_map k x (l : list (string * A)) :
  obj_set k (g x) (map on_snd l) = map on_snd (obj_set k x l).
Proof.
  unfold obj_set. rewrite replace_map. destruct (replace k x l); simpl.
  - reflexivity.
  - destruct (array_index k); [apply insert_index_map|].
    now rewrite map_app.
Qed.

Lemma fromEntries_map (es : list (string * A)) :
  fromEntries (map on_snd es) = map on_snd (fromEntries es).
Proof.
  unfold fromEntries. change (@nil (string * B)) with (map on_snd []).
  generalize (@nil (string * A)) as acc.
  induction es as [|[k x] es IH]; simpl; intros acc; [reflexivity|].
  change (g x) with (g (snd (k, x))). simpl snd. now rewrite obj_set_map, IH.
Qed.

End MapTables.

Lemma lookup_map_snd {A B : Type} (g : A -> B) k (l : list (string * A)) :
  lookup k (map (on_snd g) l) = option_map g (lookup k l).
Proof.
  induction l as [|[k' x] l IH]; simpl; [reflexivity|].
  now destruct (k =? k')%string.
Qed.

Lemma lookup_some {A : Type} k (l : list (string * A)) :
  In k (map fst l) -> exists x, lookup k l = Some x.
Proof.
  induction l as [|[k' x] l IH]; simpl; [tauto|]. intros [->|H].
  - rewrite String.eqb_refl. now exists x.
  - destruct (k =? k')%string; [now exists x | now apply IH].
Qed.

(** The table built from the tags [ts] on top of [m]. *)
Lemma add_tags_spec ts :
  forall m,
    (forall key, In key (map fst (add_tags ts m)) <->
                 In key (map fst m)
                 \/ exists segs tg, In (segs, tg) ts /\ key = path_text segs)
    /\ (forall key tg, lookup key (add_tags ts m) = Some tg ->
                       lookup key m = Some tg
                       \/ exists segs, In (segs, tg) ts /\ key = path_text segs)
    /\ (NoDup (map fst m) -> NoDup (map fst (add_tags ts m))).
Proof.
  induction ts as [|[segs tg] ts IH]; intros m.
  - simpl. repeat split; try tauto. intros [H|(s & t & [] & _)]; exact H.
  - change (add_tags ((segs, tg) :: ts) m)
      with (add_tags ts (map_set (path_text segs) tg m)).
    destruct (IH (map_set (path_text segs) tg m)) as (Hk & Hl & Hn).
    split; [|split].
    + intros key. rewrite Hk, map_set_keys. split.
      * intros [[->|H]|(s & t & Hi & ->)]; [right|left|right]; eauto.
        -- exists segs, tg. split; [now left|reflexivity].
        -- exists s, t. split; [now right|reflexivity].
      * intros [H|(s & t & [E|Hi] & ->)]; [left; now right| |right; eauto].
        injection E as -> ->. left. now left.
    + intros key t H. apply Hl in H as [H|(s & Hi & ->)].
      * rewrite map_set_lookup in H.
        destruct (String.eqb_spec key (path_text segs)) as [->|]; [|now left].
        injection H as <-. right. exists segs. split; [now left|reflexivity].
      * right. exists s. split; [now right|reflexivity].
    + intros H. apply Hn. now apply map_set_nodup.
Qed.

Lemma add_tags_nil ts m : add_tags ts m = [] -> ts = [] /\ m = [].
Proof.
  revert m. induction ts as [|[segs tg] ts IH]; intros m H; [now split|].
  change (add_tags ((segs, tg) :: ts) m)
    with (add_tags ts (map_set (path_text segs) tg m)) in H.
  apply IH in H as [_ H]. exfalso.
  assert (Hi : In (path_text segs) (map fst (map_set (path_text segs) tg m)))
    by (apply map_set_keys; now left).
  rewrite H in Hi. destruct Hi.
Qed.

Section RoundTrip.
Variable regexp_source : string -> string -> option string.

Lemma leaf_json (v : jsval) : leaf_ok regexp_source v -> is_json (lower_leaf v).
Proof.
  destruct 1; simpl; try constructor; auto.
Qed.

Lemma lower_json (v : jsval) : rtree regexp_source v -> is_json (lower v).
Proof.
  induction v using jsval_ind; intros Hr;
    try (inversion Hr as [? Hl|? Hh|]; subst;
         [now apply (leaf_json _ Hl)|now apply (held_json _ Hh)]).
  destruct (rtree_members _ _ Hr) as [Hc Hf].
  simpl. constructor.
  - change (fun kv : string * jsval => (fst kv, lower (snd kv)))
      with (on_snd lower). now rewrite fromEntries_map, Hc.
  - rewrite Forall_forall in *. intros [k c] Hi.
    apply in_map_iff in Hi as ([k' c'] & E & Hi). injection E as <- <-.
    apply (H (k', c') Hi). now apply (Hf (k', c')).
Qed.

(** The segments of the path of a tag are free of periods. *)
Lemma tags_segments (v : jsval) :
  rtree regexp_source v ->
  forall segs path tg,
    In (path, tg) (tags segs v) ->
    exists more, path = (segs ++ more)%list
                 /\ Forall (fun s => dot_free s = true) more.
Proof.
  induction v using jsval_ind; intros Hr segs path tg Hi;
    try (apply tags_shape in Hi; destruct Hi as [-> _]; exists [];
         split; [now rewrite List.app_nil_r | constructor]).
  destruct (rtree_members _ _ Hr) as [Hc Hf].
  apply tags_shape in Hi. destruct Hi as (k & c & Hin & Ht).
  rewrite Forall_forall in H, Hf. destruct (Hf (k, c) Hin) as [[_ Hk] Hrc].
  destruct (H (k, c) Hin Hrc _ _ _ Ht) as (more & -> & Hm).
  exists (k :: more). split; [now rewrite <- List.app_assoc | now constructor].
Qed.

(** The loop of [deserialize], on a partly restored tree. *)
Lemma apply_all_partial (M root : jsval) :
  rtree regexp_source root ->
  forall keys done,
    (forall key, In key keys ->
       exists tg, In (split_dot key, tg) (tags [] root)
                  /\ get_own M key = Normal (VStr (type_name tg))) ->
    NoDup keys ->
    (forall key, In key keys -> ~ In (split_dot key) done) ->
    apply_all regexp_source M keys (partial done [] root)
    = Normal (partial (rev (map split_dot keys) ++ done) [] root).
Proof.
  intros Hr keys. induction keys as [|key keys IH]; intros done Hk Hn Hd.
  - reflexivity.
  - inversion Hn as [|? ? Hnk Hnl]; subst.
    destruct (Hk key (or_introl eq_refl)) as (tg & Hi & Hg).
    cbn [apply_all]. rewrite Hg. cbn [bind].
    destruct (split_dot key) as [|k more] eqn:E;
      [now apply split_dot_nonempty in E|].
    rewrite (restores_rtree regexp_source root Hr done [] (k :: more) tg k more
               Hi eq_refl).
    2:{ rewrite <- E. apply Hd. now left. }
    cbn [bind]. rewrite IH.
    + cbn [map rev]. rewrite E, <- List.app_assoc. reflexivity.
    + intros key' Hi'. apply Hk. now right.
    + exact Hnl.
    + intros key' Hi' [Heq|Hin].
      * rewrite <- E in Heq. apply split_dot_inj in Heq. congruence.
      * apply (Hd key'); [now right|exact Hin].
Qed.

Lemma serialize_object p ps :
  members regexp_source false (p :: ps) ->
  fromEntries (p :: ps) = p :: ps ->
  serialize (VObj (p :: ps))
  = Normal {| json := Some (json_text (lower (VObj (p :: ps))));
              meta := match add_tags (tags [] (VObj (p :: ps))) [] with
                      | [] => None
                      | m => Some (fromEntries m)
                      end |}.
Proof.
  intros Hm Hc. unfold serialize, JSON_stringify.
  assert (Hsize : (children_size (p :: ps) <= jsval_size (VObj (p :: ps)))%nat)
    by (unfold children_size; simpl; lia).
  remember (jsval_size (VObj (p :: ps))) as n eqn:En. clear En.
  cbn [SerializeJSONProperty get_own lookup String.eqb bind toJSON].
  unfold replacer at 1. cbn [owner initial st_stack bind is_object classify].
  cbn [List.length Nat.eqb String.eqb st_keys keys_top append].
  set (st1 := push_entry _ _).
  destruct (proj1 (proj2 (visits_tree regexp_source)) false (p :: ps) Hm
              n st1 [] KObject [] [] [""%string])
    as (st' & Hs & Hmeta & _).
  - now apply AO_top.
  - cbn [app]. rewrite <- Hc. apply fromEntries_nodup.
  - reflexivity.
  - exact Hsize.
  - cbn [app] in Hs. cbn [bind]. rewrite Hs. cbn [bind].
    f_equal. f_equal.
    + f_equal. unfold object_text.
      rewrite (object_members_all (fun v => json_text (lower v))).
      cbn [lower json_text]. now rewrite map_map.
    + rewrite Hmeta. reflexivity.
Qed.

(** [serialize] on an array of JSON values. *)
Lemma serialize_array x xs :
  array_length_ok (x :: xs) -> is_json (VArr (x :: xs)) ->
  elements regexp_source false (x :: xs) ->
  serialize (VArr (x :: xs))
  = Normal {| json := Some (json_text (VArr (x :: xs))); meta := None |}.
Proof.
  intros Hlen Hj He. unfold serialize, JSON_stringify.
  assert (Hsize : (elements_size (x :: xs) <= jsval_size (VArr (x :: xs)))%nat)
    by (unfold elements_size; simpl; lia).
  remember (jsval_size (VArr (x :: xs))) as n eqn:En. clear En.
  cbn [SerializeJSONProperty get_own lookup String.eqb bind toJSON].
  unfold replacer at 1. cbn [owner initial st_stack bind is_object classify].
  cbn [List.length Nat.eqb String.eqb st_keys keys_top append].
  set (st1 := push_entry _ _).
  destruct (proj2 (proj2 (visits_tree regexp_source)) false (x :: xs) He
              n st1 [] (KNon TUndefined) [] [] [""%string])
    as (st' & Hs & Hmeta & _).
  - now apply AO_top.
  - exact Hlen.
  - now apply json_elements.
  - reflexivity.
  - exact Hsize.
  - cbn [app List.length] in Hs. unfold index_keys. cbn [bind List.length].
    rewrite Hs. cbn [bind]. rewrite Hmeta. unfold st1. cbn [st_meta push_entry].
    now rewrite array_text_all.
Qed.

(** [deserialize] undoes [serialize] on a JSON value that is a tree. *)
Lemma roundtrip_json (v : jsval) :
  is_json v -> tree regexp_source false v ->
  (forall ps, v <> VObj ps) ->
  exists r,
    serialize v = Normal r
    /\ deserialize regexp_source (json_value (json r)) (meta_value (meta r))
       = Normal v.
Proof.
  intros Hj Ht Hn.
  assert (Hd : forall text,
    text <> "" -> JSON_parse text = Normal v ->
    deserialize regexp_source (VStr text) VUndefined = Normal v).
  { intros text Hne Hp. unfold deserialize.
    destruct text as [|c text]; [congruence|].
    cbn [truthy negb to_string bind]. now rewrite Hp. }
  inversion Ht as [? ? Hl|? p ps' Hc Hm|? x xs Hlen _ He| | |]; subst;
    try now inversion Hj.
  - inversion Hl; subst; try now inversion Hj.
    + eexists. split; [reflexivity|]. reflexivity.
    + destruct b; (eexists; split; [reflexivity|reflexivity]).
    + exists {| json := Some (dec_of_Z z); meta := None |}.
      split; [unfold serialize, JSON_stringify; cbn; now rewrite H|].
      cbn [json meta json_value meta_value]. apply Hd.
      * pose proof (length_text_pos _ Hj) as Hlen.
        cbn [json_text] in Hlen. intros E. rewrite E in Hlen. simpl in Hlen. lia.
      * apply (JSON_parse_text _ Hj).
    + eexists. split; [reflexivity|].
      cbn [json meta json_value meta_value]. apply Hd; [discriminate|].
      apply (JSON_parse_text _ Hj).
    + eexists. split; [reflexivity|]. reflexivity.
    + now contradiction (Hn []).
  - now contradiction (Hn (p :: ps')).
  - eexists. split; [now apply serialize_array|].
    cbn [json meta json_value meta_value]. apply Hd; [discriminate|].
    apply (JSON_parse_text _ Hj).
Qed.

Lemma root_tag_path p ps path tg :
  rtree regexp_source (VObj (p :: ps)) ->
  In (path, tg) (tags [] (VObj (p :: ps))) ->
  split_dot (path_text path) = path.
Proof.
  intros Hr Hi. destruct (tags_segments _ Hr _ _ _ Hi) as (more & -> & Hm).
  apply tags_shape in Hi. destruct Hi as (k & c & _ & Ht).
  apply tags_prefix in Ht as [more' E]. simpl in E. simpl.
  apply split_join; [|exact Hm]. simpl in *. now rewrite E.
Qed.

(** [deserialize] undoes [serialize] on a tree. *)
Lemma roundtrip_object p ps :
  members regexp_source false (p :: ps) ->
  fromEntries (p :: ps) = p :: ps ->
  exists r,
    serialize (VObj (p :: ps)) = Normal r
    /\ deserialize regexp_source (json_value (json r)) (meta_value (meta r))
       = Normal (VObj (p :: ps)).
Proof.
  intros Hm Hc. eexists. split; [now apply serialize_object|].
  set (root := VObj (p :: ps)).
  assert (Hr : rtree regexp_source root)
    by (apply (proj1 (tree_rtree regexp_source) false); now apply T_obj).
  cbn [json meta json_value]. unfold deserialize.
  assert (Ht : truthy (VStr (json_text (lower root))) = true) by reflexivity.
  rewrite Ht. cbn [negb to_string bind].
  rewrite (JSON_parse_text _ (lower_json root Hr)). cbn [bind].
  destruct (add_tags (tags [] root) []) as [|e m0] eqn:E.
  - (* no tag *)
    cbn [meta_value truthy]. apply add_tags_nil in E as [E _].
    rewrite <- (partial_nil root []). f_equal.
    apply (partial_all regexp_source root Hr). intros path tg Hi.
    rewrite E in Hi. destruct Hi.
  - assert (Hne : add_tags (tags [] root) [] <> []) by (rewrite E; discriminate).
    rewrite <- E. clear e m0 E.
    set (m0 := add_tags (tags [] root) []) in *.
    destruct (add_tags_spec (tags [] root) []) as (Hkeys & Hlook & Hnd).
    fold m0 in Hkeys, Hlook, Hnd. specialize (Hnd (NoDup_nil _)).
    replace (match m0 with [] => None | _ :: _ => Some (fromEntries m0) end)
      with (Some (fromEntries m0)).
    2:{ destruct m0; [now contradiction Hne | reflexivity]. }
    cbn [meta_value meta_object truthy Object_keys bind].
    rewrite map_map. cbn [fst].
    rewrite (map_ext _ fst) by reflexivity.
    rewrite <- (partial_nil root []).
    rewrite (apply_all_partial _ root Hr (map fst (fromEntries m0)) []).
    + f_equal. apply (partial_all regexp_source root Hr). intros path tg Hi.
      rewrite List.app_nil_r, <- in_rev.
      rewrite <- (root_tag_path p ps path tg Hr Hi).
      apply in_map. apply fromEntries_keys. apply Hkeys. right. eauto.
    + intros key Hk. apply (proj1 (fromEntries_keys m0 key)) in Hk.
      destruct (lookup_some key m0 Hk) as [tg Hl].
      destruct (Hlook key tg Hl) as [Hl0|(segs & Hi & ->)]; [discriminate|].
      exists tg. rewrite (root_tag_path p ps segs tg Hr Hi). split; [exact Hi|].
      unfold meta_object. cbn [get_own].
      change (fun kt : string * NonJsonTypes => (fst kt, VStr (type_name (snd kt))))
        with (on_snd (fun t => VStr (type_name t))).
      rewrite lookup_map_snd, (fromEntries_lookup m0 _ Hnd), Hl. reflexivity.
    + apply fromEntries_nodup.
    + intros key _ [].
Qed.

End RoundTrip.

(** * The claims *)

(** A sample engine for the concrete evaluations: every pattern is
    accepted and is its own source. *)
Definition any_pattern (pattern flags : string) : option string := Some pattern.

(** ** Nested objects: the frame stack *)

(** The object [{a: {b: {c: 1}}, d: 1}]. *)
Definition nested_then_sibling : jsval :=
  VObj [("a", VObj [("b", VObj [("c", VNum (Int 1))])]); ("d", VNum (Int 1))].

(** The state after the call of the replacer for the root. *)
Definition after_root : state :=
  {| st_stack := [frame KObject nested_then_sibling 2 0];
     st_keys := [""]; st_meta := [] |}.

(** The state after the visits of [a], [b] and [c]. *)
Definition before_d : state :=
  {| st_stack :=
       [frame KObject (VObj [("c", VNum (Int 1))]) 1 1;
        frame KObject (VObj [("b", VObj [("c", VNum (Int 1))])]) 1 1;
        frame KObject nested_then_sibling 2 1];
     st_keys := ["a.b."; "a."; ""]; st_meta := [] |}.

(** C2, the defect.  On [{a: {b: {c: 1}}, d: 1}], when the key [d] of the
    root is visited, two frames (those of [b] and of [a]) have had all
    their visits.  The replacer pops one: the frame it charges is that of
    [a], not the root that owns [d]; the value it reads there is
    [undefined], which it tags and replaces by [null]. *)
Theorem one_pop_leaves_wrong_owner :
  replacer initial "" nested_then_sibling = Normal (nested_then_sibling, after_root)
  /\ (exists text,
        SerializeJSONProperty replacer 3 after_root "a" nested_then_sibling
        = Normal (Some text, before_d))
  /\ map (fun e => (count e <=? iteration e)%nat) (st_stack before_d)
     = [true; true; false]
  /\ (exists e st,
        owner before_d = Normal (Some e, st)
        /\ value e = VObj [("b", VObj [("c", VNum (Int 1))])]
        /\ value e <> nested_then_sibling
        /\ get_own (value e) "d" = Normal VUndefined
        /\ get_own nested_then_sibling "d" = Normal (VNum (Int 1)))
  /\ (exists st,
        replacer before_d "d" (VNum (Int 1)) = Normal (VNull, st)
        /\ st_meta st = [("a.d", TUndefined)]).
Proof.
  split; [reflexivity|]. split; [eexists; reflexivity|].
  split; [reflexivity|]. split.
  - eexists _, _. split; [reflexivity|]. repeat split; discriminate.
  - eexists. split; reflexivity.
Qed.

(** ** Plain values *)

(** C6, the defect.  [{a: {b: {c: 1}}, d: 1}] holds no extended kind, yet
    [serialize] records a tag and prints [null] for [d], where
    [JSON.stringify] alone prints [1]. *)
Theorem plain_value_not_preserved :
  serialize nested_then_sibling
  = Normal {| json := Some (json_text
                (VObj [("a", VObj [("b", VObj [("c", VNum (Int 1))])]);
                       ("d", VNull)]));
              meta := Some [("a.d", TUndefined)] |}
  /\ JSON_stringify_plain 4 nested_then_sibling
     = Normal (Some (json_text nested_then_sibling))
  /\ json_text nested_then_sibling
     <> json_text (VObj [("a", VObj [("b", VObj [("c", VNum (Int 1))])]);
                         ("d", VNull)]).
Proof. repeat split; try reflexivity. discriminate. Qed.

(** ** The payload of [stringify] *)

(** The object [{when: new Date("2024-01-01T00:00:00.000Z")}]. *)
Definition dated : jsval := VObj [("when", VDate (Some 1704067200000))].

Definition dated_text : string :=
  json_text (VObj [("when", VStr "2024-01-01T00:00:00.000Z")]).

Definition dated_meta : string :=
  "," ++ quoted "__meta__" ++ ":" ++ json_text (VObj [("when", VStr "date")]) ++ "}".

(** C3, the defect.  For [{when: <date>}] the text starts with a brace
    and the tag map is not empty, but [stringify] cuts the last two
    characters of the text, not the closing brace alone: the quotation
    mark that ends the last member is lost and the payload is no JSON
    text. *)
Theorem stringify_cuts_two_characters :
  serialize dated
  = Normal {| json := Some dated_text; meta := Some [("when", TDate)] |}
  /\ stringify dated
     = Normal (Some (String.substring 0 (String.length dated_text - 2) dated_text
                     ++ dated_meta))
  /\ String.substring 0 (String.length dated_text - 2) dated_text
     <> String.substring 0 (String.length dated_text - 1) dated_text
  /\ JSON_parse (String.substring 0 (String.length dated_text - 2) dated_text
                 ++ dated_meta) = Throw SyntaxError
  /\ JSON_parse (String.substring 0 (String.length dated_text - 1) dated_text
                 ++ dated_meta)
     = Normal (VObj [("when", VStr "2024-01-01T00:00:00.000Z");
                     ("__meta__", VObj [("when", VStr "date")])]).
Proof. repeat split; try reflexivity. discriminate. Qed.

(** The array [[1, 2, NaN]]. *)
Definition with_nan : jsval := VArr [VNum (Int 1); VNum (Int 2); VNum NaN].

Definition with_nan_payload : string :=
  "{" ++ quoted "__json__" ++ String "034" ":"
  ++ json_text (VArr [VNum (Int 1); VNum (Int 2); VStr "NaN"])
  ++ "," ++ quoted "__meta__" ++ ":" ++ json_text (VObj [("2", VStr "nan")]) ++ "}".

(** C4, the defect.  For [[1, 2, NaN]] the payload of [stringify] has a
    second quotation mark after the key [__json__]: it is no JSON text,
    and [parse] throws on it.  For [{when: <date>}] the payload is no
    JSON text either (C3), and [parse] throws as well; and on the payload
    with the tag map spliced before the closing brace, [parse] hands the
    whole text to [deserialize], so that the key [__meta__] stays in the
    result. *)
Theorem parse_rejects_stringify_payload :
  forall regexp_source,
    stringify with_nan = Normal (Some with_nan_payload)
    /\ parse regexp_source with_nan_payload = Throw SyntaxError
    /\ (exists payload,
          stringify dated = Normal (Some payload)
          /\ parse regexp_source payload = Throw SyntaxError)
    /\ parse regexp_source
         (String.substring 0 (String.length dated_text - 1) dated_text
          ++ dated_meta)
       = Normal (VObj [("when", VDate (Some 1704067200000));
                       ("__meta__", VObj [("when", VStr "date")])]).
Proof.
  intros rs. split; [reflexivity|]. split; [reflexivity|].
  split; [eexists; split; reflexivity|]. reflexivity.
Qed.

(** ** Text that starts with neither a brace nor a bracket *)

Lemma JSON_parse_quote (s : string) :
  JSON_parse (QuoteJSONString s) = Normal (VStr s).
Proof. apply (JSON_parse_text (VStr s)). constructor. Qed.

Lemma parse_quote regexp_source (s : string) :
  parse regexp_source (QuoteJSONString s) = Normal (VStr s).
Proof. unfold parse. rewrite JSON_parse_quote. reflexivity. Qed.

Lemma prefix_head (c : ascii) (r : string) :
  String.prefix (String c "") (String c r) = true.
Proof.
  simpl. destruct (ascii_dec c c) as [_|H]; [|congruence]. now destruct r.
Qed.

(** The text [serialize] gives for an array or a set starts with a
    bracket; for an object, a map or an error, with a brace. *)
Lemma serialize_container_text (v : jsval) (r : serialized) (j : string) :
  is_object v = true -> (forall t, v <> VDate t) ->
  (forall s f, v <> VRegExp s f) ->
  serialize v = Normal r -> json r = Some j ->
  String.prefix "{" j = true \/ String.prefix "[" j = true.
Proof.
  intros Ho Hd Hre Hs Hj. unfold serialize, JSON_stringify in Hs.
  destruct v; try discriminate Ho;
    try (now contradiction (Hd t)); try (now contradiction (Hre source flags));
    cbn [SerializeJSONProperty get_own lookup String.eqb bind toJSON] in Hs;
    unfold replacer at 1 in Hs;
    cbn [owner initial st_stack bind is_object classify] in Hs.
  - (* array *)
    destruct (List.length elems =? 0)%nat; cbn [bind] in Hs;
      match type of Hs with
      | context [serialize_each ?f ?ks ?st] =>
          destruct (serialize_each f ks st) as [[parts st2]| |];
            try discriminate Hs
      end;
      cbn [bind] in Hs; injection Hs as <-; simpl in Hj; injection Hj as <-;
      right; apply prefix_head.
  - (* object *)
    destruct (List.length props =? 0)%nat; cbn [bind] in Hs;
      match type of Hs with
      | context [serialize_each ?f ?ks ?st] =>
          destruct (serialize_each f ks st) as [[parts st2]| |];
            try discriminate Hs
      end;
      cbn [bind] in Hs; injection Hs as <-; simpl in Hj; injection Hj as <-;
      left; apply prefix_head.
  - (* set *)
    destruct (List.length elems =? 0)%nat; cbn [bind] in Hs;
      match type of Hs with
      | context [serialize_each ?f ?ks ?st] =>
          destruct (serialize_each f ks st) as [[parts st2]| |];
            try discriminate Hs
      end;
      cbn [bind] in Hs; injection Hs as <-; simpl in Hj; injection Hj as <-;
      right; apply prefix_head.
  - (* map *)
    destruct (List.length (fromEntries entries) =? 0)%nat; cbn [bind] in Hs;
      match type of Hs with
      | context [serialize_each ?f ?ks ?st] =>
          destruct (serialize_each f ks st) as [[parts st2]| |];
            try discriminate Hs
      end;
      cbn [bind] in Hs; injection Hs as <-; simpl in Hj; injection Hj as <-;
      left; apply prefix_head.
  - (* error *)
    cbn [Nat.eqb bind] in Hs;
      match type of Hs with
      | context [serialize_each ?f ?ks ?st] =>
          destruct (serialize_each f ks st) as [[parts st2]| |];
            try discriminate Hs
      end;
      cbn [bind] in Hs; injection Hs as <-; simpl in Hj; injection Hj as <-;
      left; apply prefix_head.
Qed.

(** C9, as amended.  When the text of [serialize] starts with neither
    a brace nor a bracket, [stringify] returns it unchanged, and the tag
    map, if there is one, is dropped.  If there is one, or if the value
    is a valid date (which reaches the replacer as text already and gets
    no tag), the text is a quoted string and [parse] yields that string,
    not the value.  If there is none and the value is neither a date nor
    [null], [parse] yields the value. *)
Theorem stringify_drops_root_tag :
  forall regexp_source v r j,
    serialize v = Normal r -> json r = Some j ->
    String.prefix "{" j = false -> String.prefix "[" j = false ->
    stringify v = Normal (Some j)
    /\ (meta r <> None \/ (exists t, v = VDate (Some t)) ->
        exists s, j = QuoteJSONString s
                  /\ parse regexp_source j = Normal (VStr s)
                  /\ v <> VStr s)
    /\ (meta r = None -> (forall t, v <> VDate t) -> v <> VNull ->
        parse regexp_source j = Normal v).
Proof.
  intros rs v r j Hs Hj Hb Hk. split; [|split].
  - unfold stringify. rewrite Hs. cbn [bind]. rewrite Hj.
    destruct (meta r); [|reflexivity]. rewrite Hb, Hk.
    now destruct (j =? "")%string.
  - intros Hm.
    assert (Hnone : meta r = None -> (forall t, v <> VDate (Some t)) -> False).
    { intros E Hd. destruct Hm as [Hm|[t Ht]]; [now apply Hm|now apply (Hd t)]. }
    destruct v as [| |b|n|s0|z|l|ps|d|l|es|src fl|en em es0];
      try (assert (Hc : String.prefix "{" j = true \/ String.prefix "[" j = true)
             by (apply (serialize_container_text _ r j) with (4 := Hs);
                 [reflexivity|intros; discriminate|intros; discriminate
                 |exact Hj]);
           destruct Hc; congruence).
    + simpl in Hs. injection Hs as <-. discriminate Hj.
    + simpl in Hs. injection Hs as <-. exfalso. apply Hnone;
        [reflexivity|discriminate].
    + exfalso. destruct b; vm_compute in Hs; injection Hs as <-;
        (apply Hnone; [reflexivity|discriminate]).
    + destruct n as [z| | |].
      * exfalso. unfold serialize, JSON_stringify in Hs. cbn in Hs.
        destruct (safe_integer z); [|discriminate Hs]. cbn in Hs.
        injection Hs as <-. apply Hnone; [reflexivity|discriminate].
      * exists "Infinity". vm_compute in Hs. injection Hs as <-.
        simpl in Hj. injection Hj as <-.
        split; [reflexivity|]. split; [exact (parse_quote rs "Infinity")|discriminate].
      * exists "-Infinity". vm_compute in Hs. injection Hs as <-.
        simpl in Hj. injection Hj as <-.
        split; [reflexivity|]. split; [exact (parse_quote rs "-Infinity")|discriminate].
      * exists "NaN". vm_compute in Hs. injection Hs as <-.
        simpl in Hj. injection Hj as <-.
        split; [reflexivity|]. split; [exact (parse_quote rs "NaN")|discriminate].
    + exfalso. unfold serialize, JSON_stringify in Hs. cbn in Hs.
      injection Hs as <-. apply Hnone; [reflexivity|discriminate].
    + exists (dec_of_Z z). unfold serialize, JSON_stringify in Hs. cbn in Hs.
      injection Hs as <-. simpl in Hj. injection Hj as <-.
      split; [reflexivity|]. split; [apply parse_quote|discriminate].
    + (* date *)
      destruct d as [t|].
      * exists (toISOString t). unfold serialize, JSON_stringify in Hs.
        cbn in Hs. injection Hs as <-. simpl in Hj. injection Hj as <-.
        split; [reflexivity|]. split; [apply parse_quote|discriminate].
      * exfalso. vm_compute in Hs. injection Hs as <-.
        apply Hnone; [reflexivity|discriminate].
    + (* regular expression *)
      exists (regexp_text src fl).
      unfold serialize, JSON_stringify in Hs.
      cbn in Hs. injection Hs as <-. simpl in Hj. injection Hj as <-.
      split; [reflexivity|]. split; [apply parse_quote|discriminate].
  - intros Hm Hd Hn.
    destruct v as [| |b|n|s0|z|l|ps|d|l|es|src fl|en em es0];
      try (assert (Hc : String.prefix "{" j = true \/ String.prefix "[" j = true)
             by (apply (serialize_container_text _ r j) with (4 := Hs);
                 [reflexivity|intros; discriminate|intros; discriminate
                 |exact Hj]);
           destruct Hc; congruence);
      try congruence.
    + simpl in Hs. injection Hs as <-. discriminate Hj.
    + destruct b; vm_compute in Hs; injection Hs as <-;
        simpl in Hj; injection Hj as <-; reflexivity.
    + destruct n as [z| | |];
        [|vm_compute in Hs; injection Hs as <-; discriminate Hm ..].
      unfold serialize, JSON_stringify in Hs. cbn in Hs.
      destruct (safe_integer z) eqn:Ez; [|discriminate Hs]. cbn in Hs.
      injection Hs as <-. simpl in Hj. injection Hj as <-.
      unfold parse.
      pose proof (JSON_parse_text (VNum (Int z)) (J_num z Ez)) as Hp.
      cbn [json_text] in Hp. rewrite Hp. reflexivity.
    + unfold serialize, JSON_stringify in Hs. cbn in Hs.
      injection Hs as <-. simpl in Hj. injection Hj as <-. apply parse_quote.
    + unfold serialize, JSON_stringify in Hs. cbn in Hs.
      injection Hs as <-. discriminate Hm.
    + unfold serialize, JSON_stringify in Hs. cbn in Hs.
      injection Hs as <-. discriminate Hm.
Qed.

Lemma stringify_drops_root_tag_witness :
  exists s, parse any_pattern (QuoteJSONString "10") = Normal (VStr s)
            /\ VBigInt 10 <> VStr s.
Proof.
  destruct (stringify_drops_root_tag any_pattern (VBigInt 10)
              {| json := Some (QuoteJSONString "10");
                 meta := Some [("", TBigint)] |}
              (QuoteJSONString "10")
              eq_refl eq_refl eq_refl eq_refl) as (_ & H & _).
  destruct H as (s & Hq & Hp & Hne); [left; discriminate|].
  exists s. now split.
Defined.

(** C9, as stated, fails: the text of the number [5] starts with neither
    a brace nor a bracket, and [parse] of what [stringify] returns is
    the number itself, no string taking its place; and a date at the
    root, whose text is a quoted string, comes with no tag map at all. *)
Lemma plain_root_comes_back :
  (serialize (VNum (Int 5)) = Normal {| json := Some "5"; meta := None |}
   /\ String.prefix "{" "5" = false /\ String.prefix "[" "5" = false
   /\ stringify (VNum (Int 5)) = Normal (Some "5")
   /\ parse any_pattern "5" = Normal (VNum (Int 5)))
  /\ serialize (VDate (Some 1704067200000))
     = Normal {| json := Some (QuoteJSONString "2024-01-01T00:00:00.000Z");
                 meta := None |}.
Proof. repeat split; reflexivity. Qed.

(** ** The errors of [deserialize] *)

(** An evaluation that raises, if anything, an error of the engine. *)
Definition engine_only {A : Type} (c : completion A) : Prop :=
  forall s, c <> Throw (InvalidRegexp s).

Ltac break_match :=
  match goal with
  | |- context [match ?x with _ => _ end] => destruct x
  end.

Ltac engine :=
  intros; unfold engine_only; intros; repeat break_match; discriminate.

Lemma bind_engine {A B : Type} (c : completion A) (k : A -> completion B) :
  engine_only c -> (forall a, engine_only (k a)) -> engine_only (bind c k).
Proof.
  intros Hc Hk s. destruct c as [a| e|]; simpl; [apply Hk| |discriminate].
  intros H. injection H as ->. now apply (Hc s).
Qed.

Lemma get_own_engine holder key : engine_only (get_own holder key).
Proof. unfold get_own. engine. Qed.

Lemma set_own_engine holder key x : engine_only (set_own holder key x).
Proof. unfold set_own. engine. Qed.

Lemma to_string_engine v : engine_only (to_string v).
Proof.
  induction v using jsval_ind; try (cbn [to_string]; engine).
  cbn [to_string]. apply bind_engine; [|intros; discriminate].
  induction H as [|x l Hx _ IH]; [discriminate|].
  apply bind_engine; [destruct x; try exact Hx; discriminate|].
  intros t. apply bind_engine; [exact IH|]. intros; discriminate.
Qed.

Lemma Object_keys_engine v : engine_only (Object_keys v).
Proof. unfold Object_keys. engine. Qed.

Lemma Date_new_engine v : engine_only (Date_new v).
Proof. unfold Date_new. engine. Qed.

Lemma Set_new_engine v : engine_only (Set_new v).
Proof. unfold Set_new. engine. Qed.

Lemma Map_of_entries_engine v : engine_only (Map_of_entries v).
Proof. unfold Map_of_entries. engine. Qed.

Lemma BigInt_new_engine v : engine_only (BigInt_new v).
Proof. unfold BigInt_new. engine. Qed.

Lemma RegExp_new_engine rs p f : engine_only (RegExp_new rs p f).
Proof. unfold RegExp_new. engine. Qed.

Lemma Error_of_engine v : engine_only (Error_of v).
Proof.
  unfold Error_of. apply bind_engine; [apply get_own_engine|]. intros m.
  apply bind_engine; [destruct m; try apply to_string_engine; discriminate|].
  intros msg. apply bind_engine; [apply get_own_engine|]. intros n.
  apply bind_engine; [apply get_own_engine|]. intros s. discriminate.
Qed.

Lemma normal_engine {A : Type} (a : A) : engine_only (Normal a).
Proof. discriminate. Qed.

Lemma push_char_engine c k : engine_only k -> engine_only (push_char c k).
Proof.
  intros H. unfold push_char. apply bind_engine; [exact H|].
  intros [s r]. discriminate.
Qed.

Lemma parse_chars_engine (n : nat) :
  forall s, (String.length s <= n)%nat -> engine_only (parse_chars s).
Proof.
  induction n as [|n IH]; intros s Hn.
  - destruct s; [discriminate | simpl in Hn; lia].
  - destruct s as [|c r]; [discriminate|]. simpl in Hn.
    assert (Hr : engine_only (parse_chars r)) by (apply IH; lia).
    cbn [parse_chars].
    destruct (Ascii.eqb c "034"); [discriminate|].
    destruct (Ascii.eqb c "\").
    + destruct r as [|e r1]; [discriminate|]. simpl in Hn.
      assert (Hr1 : engine_only (parse_chars r1)) by (apply IH; lia).
      assert (Hu : engine_only
                (match r1 with
                 | String h1 (String h2 (String h3 (String h4 r2))) =>
                     match hex_val h1, hex_val h2, hex_val h3, hex_val h4 with
                     | Some a, Some b, Some c, Some d =>
                         if ((a =? 0) && (b =? 0))%N
                         then push_char (ascii_of_N (16 * c + d)) (parse_chars r2)
                         else Beyond
                     | _, _, _, _ => Throw SyntaxError
                     end
                 | _ => Throw SyntaxError
                 end)).
      { destruct r1 as [|h1 [|h2 [|h3 [|h4 r2]]]]; try discriminate.
        simpl in Hn.
        assert (Hr2 : engine_only (parse_chars r2)) by (apply IH; lia).
        destruct (hex_val h1), (hex_val h2), (hex_val h3), (hex_val h4);
          try discriminate.
        destruct ((n0 =? 0) && (n1 =? 0))%N; [|discriminate].
        now apply push_char_engine. }
      destruct e as [[] [] [] [] [] [] [] []];
        try discriminate; try (now apply push_char_engine); exact Hu.
    + destruct (N_of_ascii c <? 32)%N; [discriminate|].
      now apply push_char_engine.
Qed.

Lemma parse_number_engine s : engine_only (parse_number s).
Proof.
  unfold parse_number. destruct s as [|c r].
  - simpl. discriminate.
  - match goal with
    | |- engine_only (let '(neg, s1) := ?x in _) => destruct x as [neg s1]
    end.
    destruct (span is_digit s1) as [ds rest]. engine.
Qed.

Lemma parse_literal_engine s : engine_only (parse_literal s).
Proof. unfold parse_literal. engine. Qed.

Lemma parse_engine (fuel : nat) :
  (forall s, engine_only (parse_value fuel s))
  /\ (forall s acc, engine_only (parse_elems fuel s acc))
  /\ (forall s acc, engine_only (parse_members fuel s acc)).
Proof.
  induction fuel as [|f (IHv & IHe & IHm)];
    [repeat split; intros; discriminate|].
  split; [|split].
  - intros s. cbn [parse_value]. destruct (skip_ws s) as [|c r]; [discriminate|].
    destruct (Ascii.eqb c "{").
    { destruct (skip_ws r) as [|c1 r1]; [apply IHm|].
      destruct c1 as [[] [] [] [] [] [] [] []]; try apply IHm. discriminate. }
    destruct (Ascii.eqb c "[").
    { destruct (skip_ws r) as [|c1 r1]; [apply IHe|].
      destruct c1 as [[] [] [] [] [] [] [] []]; try apply IHe. discriminate. }
    destruct (Ascii.eqb c "034").
    { apply bind_engine; [apply (parse_chars_engine (String.length r)); lia|].
      intros [str r1]. discriminate. }
    destruct (Ascii.eqb c "-" || is_digit c);
      [apply parse_number_engine | apply parse_literal_engine].
  - intros s acc. cbn [parse_elems]. apply bind_engine; [apply IHv|].
    intros [v r]. destruct (skip_ws r) as [|c1 r1]; [discriminate|].
    destruct c1 as [[] [] [] [] [] [] [] []]; try discriminate; apply IHe.
  - intros s acc. cbn [parse_members].
    destruct (skip_ws s) as [|c r]; [discriminate|].
    destruct c as [[] [] [] [] [] [] [] []]; try discriminate.
    apply bind_engine; [apply (parse_chars_engine (String.length r)); lia|].
    intros [k r1]. destruct (skip_ws r1) as [|c1 r2]; [discriminate|].
    destruct c1 as [[] [] [] [] [] [] [] []]; try discriminate.
    apply bind_engine; [apply IHv|]. intros [v r3].
    destruct (skip_ws r3) as [|c2 r4]; [discriminate|].
    destruct c2 as [[] [] [] [] [] [] [] []]; try discriminate; apply IHm.
Qed.

Lemma JSON_parse_engine text : engine_only (JSON_parse text).
Proof.
  unfold JSON_parse. apply bind_engine; [apply parse_engine|].
  intros [v rest]. destruct (skip_ws rest); discriminate.
Qed.

(** The object and the key [applyConversion] ends at. *)
Fixpoint slot (result : jsval) (keys : list string)
  : completion (jsval * string) :=
  match keys with
  | [] => Normal (result, "undefined")
  | [key] => Normal (result, key)
  | key :: rest => child <- get_own result key ;; slot child rest
  end.

(** The text of the value found at a path. *)
Definition slot_text (result : jsval) (keys : list string) : completion string :=
  '(holder, key) <- slot result keys ;;
  v <- get_own holder key ;;
  to_string v.

Section FormatError.
Variable regexp_source : string -> string -> option string.

(** The entries of the tag map [M] for [keys], applied in order to
    [result], reach an entry with the tag [regexp] at whose path the text
    found, [s], does not match the pattern; the entries before it are
    applied without error. *)
Inductive raises_format (M : jsval) : list string -> jsval -> string -> Prop :=
| RF_here key keys result s :
    get_own M key = Normal (VStr "regexp") ->
    slot_text result (split_dot key) = Normal s ->
    regexp_exec s = None ->
    raises_format M (key :: keys) result s
| RF_later key keys result type r s :
    get_own M key = Normal type ->
    applyConversion regexp_source result (split_dot key) type = Normal r ->
    raises_format M keys (match r with Some x => x | None => result end) s ->
    raises_format M (key :: keys) result s.

Lemma convert_case_format name v s :
  convert_case regexp_source name v = Throw (InvalidRegexp s)
  <-> name = "regexp" /\ to_string v = Normal s /\ regexp_exec s = None.
Proof.
  unfold convert_case. split.
  - destruct (String.eqb_spec name "date");
      [intros H; exfalso; revert H;
       apply bind_engine; [apply Date_new_engine|intros; discriminate]|].
    destruct (String.eqb_spec name "set");
      [intros H; exfalso; revert H;
       apply bind_engine; [apply Set_new_engine|intros; discriminate]|].
    destruct (String.eqb_spec name "map");
      [intros H; exfalso; revert H;
       apply bind_engine; [apply Map_of_entries_engine|intros; discriminate]|].
    destruct (String.eqb_spec name "regexp") as [->|].
    + destruct (to_string v) as [text|e|] eqn:Et; cbn [bind];
        [|intros H; exfalso; injection H as ->;
          now apply (to_string_engine v s)|discriminate].
      destruct (regexp_exec text) as [[body flags]|] eqn:Er.
      * intros H; exfalso; revert H.
        apply bind_engine; [apply RegExp_new_engine|intros; discriminate].
      * intros H. injection H as <-. auto.
    + destruct (String.eqb_spec name "bigint");
        [intros H; exfalso; revert H;
         apply bind_engine; [apply BigInt_new_engine|intros; discriminate]|].
      repeat (match goal with
              | |- context [if ?b then _ else _] => destruct b
              end; try discriminate).
      intros H; exfalso; revert H.
      apply bind_engine; [apply Error_of_engine|intros; discriminate].
  - intros (-> & Ht & Hr). cbn [String.eqb Ascii.eqb Bool.eqb].
    rewrite Ht. cbn [bind]. now rewrite Hr.
Qed.

Lemma convert_slot_format result key type s :
  convert_slot regexp_source result key type = Throw (InvalidRegexp s)
  <-> type = VStr "regexp"
      /\ (v <- get_own result key ;; to_string v) = Normal s
      /\ regexp_exec s = None.
Proof.
  unfold convert_slot. destruct (get_own result key) as [v|e|] eqn:Eg; cbn [bind].
  - destruct type; cbn [convert];
      try (split; [discriminate|intros (H & _); discriminate H]).
    rename s0 into name.
    destruct (convert_case regexp_source name v) as [[x|]|e|] eqn:Ec; cbn [bind].
    + split.
      * intros H. exfalso. revert H.
        apply bind_engine; [apply set_own_engine|intros; discriminate].
      * intros (E & Ht & Hr). injection E as ->.
        assert (H : convert_case regexp_source "regexp" v = Throw (InvalidRegexp s))
          by (apply convert_case_format; auto).
        congruence.
    + split; [discriminate|]. intros (E & Ht & Hr). injection E as ->.
      assert (H : convert_case regexp_source "regexp" v = Throw (InvalidRegexp s))
        by (apply convert_case_format; auto).
      congruence.
    + split.
      * intros H. injection H as ->. apply convert_case_format in Ec.
        destruct Ec as (-> & Ht & Hr). auto.
      * intros (E & Ht & Hr). injection E as ->.
        assert (H : convert_case regexp_source "regexp" v = Throw (InvalidRegexp s))
          by (apply convert_case_format; auto).
        congruence.
    + split; [discriminate|]. intros (E & Ht & Hr). injection E as ->.
      assert (H : convert_case regexp_source "regexp" v = Throw (InvalidRegexp s))
        by (apply convert_case_format; auto).
      congruence.
  - split.
    + intros H. injection H as ->. now apply get_own_engine in Eg.
    + intros (_ & H & _). discriminate H.
  - split; [discriminate|]. intros (_ & H & _). discriminate H.
Qed.

Lemma slot_text_cons2 result k k2 more :
  slot_text result (k :: k2 :: more)
  = bind (get_own result k) (fun child => slot_text child (k2 :: more)).
Proof.
  unfold slot_text. cbn [slot].
  destruct (get_own result k); reflexivity.
Qed.

Lemma applyConversion_format keys :
  forall result type s,
    applyConversion regexp_source result keys type = Throw (InvalidRegexp s)
    <-> type = VStr "regexp"
        /\ slot_text result keys = Normal s /\ regexp_exec s = None.
Proof.
  induction keys as [|k keys IH]; intros result type s.
  - apply convert_slot_format.
  - destruct keys as [|k2 more]; [apply convert_slot_format|].
    rewrite applyConversion_cons2, slot_text_cons2.
    destruct (get_own result k) as [child|e|] eqn:Eg; cbn [bind].
    + destruct (applyConversion regexp_source child (k2 :: more) type)
        as [[child'|]|e|] eqn:Ea; cbn [bind].
      * split.
        -- intros H. exfalso. revert H.
           apply bind_engine; [apply set_own_engine|intros; discriminate].
        -- intros H. apply IH in H. congruence.
      * split; [discriminate|]. intros H. apply IH in H. congruence.
      * split.
        -- intros H. injection H as ->. now apply IH.
        -- intros H. apply IH in H. congruence.
      * split; [discriminate|]. intros H. apply IH in H. congruence.
    + split.
      * intros H. injection H as ->. now apply get_own_engine in Eg.
      * intros (_ & H & _). discriminate H.
    + split; [discriminate|]. intros (_ & H & _). discriminate H.
Qed.

Lemma apply_all_format M keys :
  forall result s,
    apply_all regexp_source M keys result = Throw (InvalidRegexp s)
    <-> raises_format M keys result s.
Proof.
  induction keys as [|key keys IH]; intros result s.
  - split; [discriminate|]. intros H. inversion H.
  - cbn [apply_all].
    destruct (get_own M key) as [type|e|] eqn:Eg; cbn [bind].
    + destruct (applyConversion regexp_source result (split_dot key) type)
        as [r|e|] eqn:Ea; cbn [bind].
      * rewrite IH. split.
        -- intros H. eapply RF_later; eassumption.
        -- intros H. inversion H as [? ? ? ? Hg Ht Hr|? ? ? ? ? ? Hg Ha Hrf]; subst.
           ++ exfalso.
              assert (Hx : applyConversion regexp_source result (split_dot key)
                             (VStr "regexp") = Throw (InvalidRegexp s))
                by (apply applyConversion_format; auto).
              congruence.
           ++ rewrite Eg in Hg. injection Hg as <-. rewrite Ea in Ha.
              injection Ha as <-. exact Hrf.
      * split.
        -- intros H. injection H as ->. apply applyConversion_format in Ea.
           destruct Ea as (-> & Ht & Hr). now apply RF_here.
        -- intros H. inversion H as [? ? ? ? Hg Ht Hr|? ? ? ? ? ? Hg Ha Hrf]; subst.
           ++ assert (Hx : applyConversion regexp_source result (split_dot key)
                             (VStr "regexp") = Throw (InvalidRegexp s))
                by (apply applyConversion_format; auto).
              congruence.
           ++ congruence.
      * split; [discriminate|].
        intros H. inversion H as [? ? ? ? Hg Ht Hr|? ? ? ? ? ? Hg Ha Hrf]; subst.
        -- assert (Hx : applyConversion regexp_source result (split_dot key)
                          (VStr "regexp") = Throw (InvalidRegexp s))
             by (apply applyConversion_format; auto).
           congruence.
        -- congruence.
    + split.
      * intros H. injection H as ->. now apply get_own_engine in Eg.
      * intros H. inversion H; congruence.
    + split; [discriminate|]. intros H. inversion H; congruence.
Qed.

Lemma raises_format_entry M keys result s :
  raises_format M keys result s ->
  regexp_exec s = None
  /\ exists key, In key keys /\ get_own M key = Normal (VStr "regexp").
Proof.
  induction 1 as [key keys result s Hg Ht Hr|key keys result type r s Hg Ha _ IH].
  - split; [exact Hr|]. exists key. split; [now left|exact Hg].
  - destruct IH as (Hr & k & Hi & Hk). split; [exact Hr|].
    exists k. split; [now right|exact Hk].
Qed.

End FormatError.




(** ** Absent text and the null payload *)

(** C7, as amended.  When the text given to [deserialize] is absent or
    empty, the result is [null] (not [undefined]), whatever the tag map. *)
Theorem deserialize_absent_text_is_null :
  forall regexp_source meta,
    deserialize regexp_source VUndefined meta = Normal VNull
    /\ deserialize regexp_source VNull meta = Normal VNull
    /\ deserialize regexp_source (VStr "") meta = Normal VNull.
Proof. intros; repeat split; reflexivity. Qed.

(** C7, as stated, fails: the result for an absent text is not the absent
    marker. *)
Lemma deserialize_absent_text_not_undefined :
  deserialize (fun p _ => Some p) VUndefined (VObj [])
  <> Normal VUndefined.
Proof. discriminate. Qed.

(** ** A payload that parses to [null] *)

(** C10.  [parse] throws on every payload whose parsed value is [null],
    because it reads a property of the parsed value first; [stringify]
    of [null] is such a payload. *)
Theorem parse_null_payload_throws :
  forall regexp_source text,
    JSON_parse text = Normal VNull ->
    parse regexp_source text = Throw TypeError
    /\ stringify VNull = Normal (Some "null")
    /\ parse regexp_source "null" = Throw TypeError.
Proof.
  intros rs text H. unfold parse. rewrite H. repeat split; reflexivity.
Qed.

Lemma parse_null_payload_throws_witness :
  JSON_parse " null" = Normal VNull
  /\ parse (fun p _ => Some p) " null" = Throw TypeError.
Proof.
  split; [reflexivity|].
  apply (parse_null_payload_throws (fun p _ => Some p) " null"). reflexivity.
Defined.

(** ** The round trip *)

(** The roots that round-trip: a plain object, or a JSON value.  The tag
    of any other root is recorded for the empty path, which
    [deserialize] reads as the key [""] of the root. *)
Definition root_ok (v : jsval) : Prop :=
  (exists ps, v = VObj ps) \/ is_json v.


(** The object
    [{when: <date>, id: 12345678901234567890n, inner: {x: NaN, y: "s"},
      list: [1, {a: true}, 2], tags: Set {"a", "b"}, dict: Map {k => 1},
      last: {deep: {z: undefined, re: /a+/gi, err: <error>}}}]. *)
Definition sample_tree : jsval :=
  VObj [("when", VDate (Some 1704067200000));
        ("id", VBigInt 12345678901234567890);
        ("inner", VObj [("x", VNum NaN); ("y", VStr "s")]);
        ("list", VArr [VNum (Int 1); VObj [("a", VBool true)]; VNum (Int 2)]);
        ("tags", VSet [VStr "a"; VStr "b"]);
        ("dict", VMap [("k", VNum (Int 1))]);
        ("last", VObj [("deep",
                        VObj [("z", VUndefined);
                              ("re", VRegExp "a+" "gi");
                              ("err", VError (VStr "Error") "boom"
                                             (VStr "Error: boom"))])])].

Ltac solve_key := split; [discriminate|reflexivity].

Ltac solve_json := repeat (first [reflexivity | constructor]).

Lemma sample_tree_ok : tree any_pattern false sample_tree.
Proof.
  unfold sample_tree.
  apply T_obj; [reflexivity|].
  apply M_cons; [solve_key| |].
  { apply T_leaf. now apply L_date. }
  apply M_cons; [solve_key| |].
  { apply T_leaf. apply L_bigint. }
  apply M_cons; [solve_key| |].
  { apply T_obj; [reflexivity|].
    apply M_cons; [solve_key| |].
    { apply T_leaf. apply L_nan. }
    apply M_last; [solve_key| |reflexivity].
    apply T_leaf. apply L_str. }
  apply M_cons; [solve_key| |].
  { apply T_arr; [discriminate|solve_json|].
    apply E_cons; [apply T_leaf; now apply L_int|].
    apply E_cons.
    { apply T_obj; [reflexivity|].
      apply M_last; [solve_key| |reflexivity]. apply T_leaf. apply L_bool. }
    apply E_last; [|reflexivity]. apply T_leaf. now apply L_int. }
  apply M_cons; [solve_key| |].
  { apply T_set; [discriminate|solve_json|reflexivity|].
    apply E_cons; [apply T_leaf; apply L_str|].
    apply E_last; [|reflexivity]. apply T_leaf. apply L_str. }
  apply M_cons; [solve_key| |].
  { apply T_map; [solve_json|].
    apply M_last; [solve_key| |reflexivity]. apply T_leaf. now apply L_int. }
  apply M_last; [solve_key| |discriminate].
  apply T_obj; [reflexivity|].
  apply M_last; [solve_key| |discriminate].
  apply T_obj; [reflexivity|].
  apply M_cons; [solve_key| |].
  { apply T_leaf. apply L_undefined. }
  apply M_cons; [solve_key| |].
  { apply T_leaf. now apply L_regexp. }
  apply M_last; [solve_key| |discriminate].
  apply T_error.
Defined.



(** ** Empty collections *)

(** The value at a path of keys. *)
Fixpoint value_at (v : jsval) (segs : list string) : option jsval :=
  match segs with
  | [] => Some v
  | k :: rest =>
      match v with
      | VObj ps =>
          match lookup k ps with
          | Some c => value_at c rest
          | None => None
          end
      | _ => None
      end
  end.

Lemma lookup_In {A : Type} k (l : list (string * A)) x :
  lookup k l = Some x -> In (k, x) l.
Proof.
  induction l as [|[k' y] l IH]; simpl; [discriminate|].
  destruct (String.eqb_spec k k') as [->|].
  - intros H. injection H as ->. now left.
  - intros H. right. now apply IH.
Qed.

Lemma value_at_lower (segs : list string) :
  forall v x,
    value_at v segs = Some x -> (forall ps, x <> VObj ps) ->
    value_at (lower v) segs = Some (lower_leaf x).
Proof.
  induction segs as [|k rest IH]; intros v x Hv Hx.
  - simpl in Hv. injection Hv as ->. simpl.
    destruct x; try reflexivity. now contradiction (Hx props).
  - simpl in Hv. destruct v; try discriminate Hv.
    destruct (lookup k props) as [c|] eqn:El; [|discriminate].
    cbn [lower value_at].
    change (fun kv : string * jsval => (fst kv, lower (snd kv)))
      with (on_snd lower).
    rewrite lookup_map_snd, El. simpl. now apply IH.
Qed.

Lemma value_at_tags (segs : list string) :
  forall v x base tg,
    value_at v segs = Some x -> (forall ps, x <> VObj ps) ->
    own_tag x = Some tg ->
    In ((base ++ segs)%list, tg) (tags base v).
Proof.
  induction segs as [|k rest IH]; intros v x base tg Hv Hx Ht.
  - simpl in Hv. injection Hv as ->. rewrite List.app_nil_r.
    destruct x; simpl in *; try discriminate Ht;
      try (injection Ht as <-; now left).
    + destruct n; try discriminate Ht; injection Ht as <-; now left.
  - simpl in Hv. destruct v; try discriminate Hv.
    destruct (lookup k props) as [c|] eqn:El; [|discriminate].
    simpl. apply in_flat_map. exists (k, c). split; [now apply lookup_In|].
    simpl. replace (base ++ k :: rest)%list with ((base ++ [k]) ++ rest)%list
      by now rewrite <- List.app_assoc.
    now apply (IH c x).
Qed.

Section EmptyCollections.
Variable regexp_source : string -> string -> option string.

(** A path holds one tag. *)
Lemma tags_functional (v : jsval) :
  rtree regexp_source v ->
  forall base path tg tg',
    In (path, tg) (tags base v) -> In (path, tg') (tags base v) -> tg = tg'.
Proof.
  induction v using jsval_ind; intros Hr base path tg tg' H1 H2;
    try (apply tags_shape in H1; apply tags_shape in H2;
         destruct H1 as [_ H1], H2 as [_ H2]; congruence).
  destruct (rtree_members regexp_source _ Hr) as [Hc Hf].
  assert (Hn : NoDup (map fst ps)) by (rewrite <- Hc; apply fromEntries_nodup).
  apply tags_shape in H1. apply tags_shape in H2.
  destruct H1 as (k1 & c1 & Hi1 & Ht1), H2 as (k2 & c2 & Hi2 & Ht2).
  destruct (tags_prefix _ _ _ _ Ht1) as [m1 E1].
  destruct (tags_prefix _ _ _ _ Ht2) as [m2 E2].
  assert (k1 = k2).
  { rewrite E1 in E2. rewrite <- !List.app_assoc in E2.
    apply app_inv_head in E2. simpl in E2. now injection E2. }
  subst k2.
  assert (c1 = c2).
  { pose proof (lookup_in k1 ps Hn c1 Hi1). pose proof (lookup_in k1 ps Hn c2 Hi2).
    congruence. }
  subst c2. rewrite Forall_forall in H, Hf.
  apply (H (k1, c1) Hi1 (proj2 (Hf (k1, c1) Hi1)) _ _ _ _ Ht1 Ht2).
Qed.

(** The tag of a leaf of a tree is in the table [serialize] returns. *)
Lemma serialize_tag p ps segs x tg :
  members regexp_source false (p :: ps) ->
  fromEntries (p :: ps) = p :: ps ->
  value_at (VObj (p :: ps)) segs = Some x -> (forall qs, x <> VObj qs) ->
  own_tag x = Some tg ->
  exists r m,
    serialize (VObj (p :: ps)) = Normal r
    /\ json r = Some (json_text (lower (VObj (p :: ps))))
    /\ meta r = Some m
    /\ lookup (path_text segs) m = Some tg.
Proof.
  intros Hm Hc Hv Hx Ht. set (root := VObj (p :: ps)) in *.
  assert (Hr : rtree regexp_source root)
    by (apply (proj1 (tree_rtree regexp_source) false); now apply T_obj).
  pose proof (value_at_tags segs root x [] tg Hv Hx Ht) as Hin. simpl in Hin.
  destruct (add_tags_spec (tags [] root) []) as (Hkeys & Hlook & Hnd).
  specialize (Hnd (NoDup_nil _)).
  set (m0 := add_tags (tags [] root) []) in *.
  assert (Hk : In (path_text segs) (map fst m0))
    by (apply Hkeys; right; eauto).
  destruct (lookup_some _ m0 Hk) as [tg' Hl].
  assert (tg' = tg).
  { destruct (Hlook _ _ Hl) as [H0|(segs' & Hi' & E)]; [discriminate|].
    apply (f_equal split_dot) in E.
    rewrite (root_tag_path regexp_source p ps segs tg Hr Hin) in E.
    rewrite (root_tag_path regexp_source p ps segs' tg' Hr Hi') in E.
    subst segs'. apply (tags_functional root Hr [] segs tg' tg Hi' Hin). }
  subst tg'.
  exists {| json := Some (json_text (lower root));
            meta := Some (fromEntries m0) |}, (fromEntries m0).
  split; [|split; [reflexivity|split; [reflexivity|]]].
  - unfold root. rewrite (serialize_object regexp_source p ps Hm Hc).
    fold root. fold m0. destruct m0; [destruct Hk|reflexivity].
  - now rewrite (fromEntries_lookup m0 _ Hnd).
Qed.

End EmptyCollections.


(** The object [{s: new Set(), m: new Map()}]. *)
Definition empty_collections : jsval := VObj [("s", VSet []); ("m", VMap [])].

Lemma empty_collections_ok : tree any_pattern false empty_collections.
Proof.
  apply T_obj; [reflexivity|].
  apply M_cons; [split; [discriminate|reflexivity]| |].
  { apply T_leaf. apply L_set. }
  apply M_last; [split; [discriminate|reflexivity]| |discriminate].
  apply T_leaf. apply L_map.
Defined.


